(** * check_js.py: a line-oriented JavaScript style checker

    Shallow embedding of [src/check_js.py] and proofs about it.

    Python [str] values are sequences of Unicode code points; they are
    modelled as lists of [N].  The Python built-ins the script relies on
    ([in], [str.strip], [str.rstrip], [str.startswith], [str.count],
    [re.search], [re.sub], [enumerate], f-string formatting of integers,
    text-mode [open]/[readlines], [print], [sys.exit]) are modelled next to
    the script's own code, each with the Python behaviour it stands for. *)

From Stdlib Require Import List ZArith NArith Bool Lia Ascii String.
From Stdlib Require Import DecimalString DecimalZ.
From Stdlib Require Import Permutation.
Import ListNotations.

Set Implicit Arguments.

(** ** Text *)

Definition char := N.
Definition text := list char.

Definition char_eqb : char -> char -> bool := N.eqb.

Definition text_eq_dec : forall (a b : text), {a = b} + {a <> b} :=
  list_eq_dec N.eq_dec.

Definition text_eqb (a b : text) : bool :=
  if text_eq_dec a b then true else false.

(** A source-code literal, written as a Rocq string. *)
Definition str (s : string) : text :=
  map N_of_ascii (list_ascii_of_string s).

Definition LF : char := 10%N.   (* '\n' *)
Definition CR : char := 13%N.   (* '\r' *)
Definition TAB : char := 9%N.   (* '\t' *)
Definition SP : char := 32%N.   (* ' '  *)
Definition c_eq : char := 61%N.      (* '=' *)
Definition c_bang : char := 33%N.    (* '!' *)
Definition c_lt : char := 60%N.      (* '<' *)
Definition c_gt : char := 62%N.      (* '>' *)
Definition c_slash : char := 47%N.   (* '/' *)
Definition c_star : char := 42%N.    (* '*' *)
Definition c_lbrace : char := 123%N. (* '{' *)
Definition c_rbrace : char := 125%N. (* '}' *)

(** [str.isspace] on one code point: the characters Python's [strip] and
    [rstrip] remove when called without argument. *)
Definition isspace (c : char) : bool :=
  ((9 <=? c) && (c <=? 13)        (* \t \n \v \f \r *)
   || (28 <=? c) && (c <=? 32)    (* FS GS RS US and space *)
   || (c =? 133) || (c =? 160)    (* NEL, no-break space *)
   || (c =? 5760)
   || (8192 <=? c) && (c <=? 8202)
   || (c =? 8232) || (c =? 8233) || (c =? 8239) || (c =? 8287)
   || (c =? 12288))%N.

(** [dropwhile p s] removes the longest prefix of [s] whose characters all
    satisfy [p]. *)
Fixpoint dropwhile (p : char -> bool) (s : text) : text :=
  match s with
  | [] => []
  | c :: s' => if p c then dropwhile p s' else s
  end.

(** [s.lstrip()], [s.rstrip()], [s.strip()] *)
Definition lstrip (s : text) : text := dropwhile isspace s.
Definition rstrip (s : text) : text := rev (dropwhile isspace (rev s)).
Definition strip (s : text) : text := rstrip (lstrip s).

(** [s.rstrip(chars)]: removes trailing characters that belong to [chars]. *)
Definition rstrip_chars (chars : text) (s : text) : text :=
  rev (dropwhile (fun c => existsb (char_eqb c) chars) (rev s)).

(** [s.startswith(prefix)] *)
Fixpoint startswith (prefix s : text) : bool :=
  match prefix, s with
  | [], _ => true
  | _ :: _, [] => false
  | p :: prefix', c :: s' => char_eqb p c && startswith prefix' s'
  end.

(** [needle in hay] on strings: substring containment. *)
Fixpoint py_in (needle hay : text) : bool :=
  startswith needle hay ||
  match hay with
  | [] => false
  | _ :: hay' => py_in needle hay'
  end.

(** [s.count(c)] for a one-character argument [c]. *)
Fixpoint count_char (c : char) (s : text) : Z :=
  match s with
  | [] => 0
  | d :: s' => ((if char_eqb c d then 1 else 0) + count_char c s')%Z
  end.

(** [f"{n}"] for an integer: decimal digits, with a minus sign when
    negative. *)
Definition fmt_int (n : Z) : text :=
  str (NilEmpty.string_of_int (Z.to_int n)).

(** [enumerate(l, start)] *)
Fixpoint enumerate (A : Type) (start : Z) (l : list A) : list (Z * A) :=
  match l with
  | [] => []
  | x :: l' => (start, x) :: enumerate (start + 1) l'
  end.

(** ** Regular expressions

    The three patterns of the script are sequences of one-character
    matchers, some of them starred, and the end anchor.  [match_here]
    follows the backtracking order of Python's [re]: a greedy star tries
    the longest repetition first, a lazy star the shortest.  The result is
    the text left after the first match found in that order. *)

Inductive quant := Once | StarGreedy | StarLazy.

Inductive item :=
| Cls (p : char -> bool) (q : quant)
| Eos.                              (* [$] without MULTILINE *)

Definition regex := list item.

(** [$] matches at the end of the string and just before a newline that is
    the last character of the string. *)
Definition at_eos (s : text) : bool :=
  match s with
  | [] => true
  | [c] => char_eqb c LF
  | _ => false
  end.

Fixpoint match_here (re : regex) : text -> option text :=
  match re with
  | [] => fun s => Some s
  | Eos :: re' => fun s => if at_eos s then match_here re' s else None
  | Cls p Once :: re' => fun s =>
      match s with
      | c :: s' => if p c then match_here re' s' else None
      | [] => None
      end
  | Cls p StarGreedy :: re' =>
      fix star (s : text) : option text :=
        match s with
        | c :: s' =>
            if p c then
              match star s' with
              | Some r => Some r
              | None => match_here re' s
              end
            else match_here re' s
        | [] => match_here re' s
        end
  | Cls p StarLazy :: re' =>
      fix star (s : text) : option text :=
        match match_here re' s with
        | Some r => Some r
        | None =>
            match s with
            | c :: s' => if p c then star s' else None
            | [] => None
            end
        end
  end.

(** [re.search(re, s)] as a truth value: is there a match starting at some
    position of [s]? *)
Fixpoint re_search (re : regex) (s : text) : bool :=
  match match_here re s with
  | Some _ => true
  | None =>
      match s with
      | [] => false
      | _ :: s' => re_search re s'
      end
  end.

(** [re.sub(re, repl, s)]: every leftmost non-overlapping match is replaced
    by [repl].  [skip] counts the characters of [s] that still belong to
    the match being replaced. *)
Fixpoint sub_from (re : regex) (repl : text) (skip : nat) (s : text) : text :=
  match s with
  | [] =>
      match skip, match_here re [] with
      | O, Some _ => repl
      | _, _ => []
      end
  | c :: s' =>
      match skip with
      | S k => sub_from re repl k s'
      | O =>
          match match_here re s with
          | Some rest =>
              match (List.length s - List.length rest)%nat with
              | O => repl ++ c :: sub_from re repl 0 s'
              | S k => repl ++ sub_from re repl k s'
              end
          | None => c :: sub_from re repl 0 s'
          end
      end
  end.

Definition re_sub (re : regex) (repl : text) (s : text) : text :=
  sub_from re repl 0 s.

(** Character classes of the patterns. *)
Definition lit (c : char) : char -> bool := char_eqb c.
Definition dot : char -> bool := fun c => negb (char_eqb c LF).     (* [.] *)
Definition not_in (cs : text) : char -> bool :=
  fun c => negb (existsb (char_eqb c) cs).                          (* [^...] *)

(** [r'[^=!<>]==[^=]'] *)
Definition operator_lead : text := [c_eq; c_bang; c_lt; c_gt].

Definition loose_eq_re : regex :=
  [ Cls (not_in operator_lead) Once;
    Cls (lit c_eq) Once; Cls (lit c_eq) Once;
    Cls (not_in [c_eq]) Once ].

(** [r'//.*$'] *)
Definition line_comment_re : regex :=
  [ Cls (lit c_slash) Once; Cls (lit c_slash) Once; Cls dot StarGreedy; Eos ].

(** [r'/\*.*?\*/'] *)
Definition block_comment_re : regex :=
  [ Cls (lit c_slash) Once; Cls (lit c_star) Once; Cls dot StarLazy;
    Cls (lit c_star) Once; Cls (lit c_slash) Once ].

(** ** The scan: [check_javascript] after the file has been read *)

(** The four messages.  An issue is the formatted text, as in the script. *)
Definition msg_console (i : Z) : text :=
  str "Line " ++ fmt_int i ++ str ": Found console.log - should use debugLog".

Definition msg_loose_eq (i : Z) : text :=
  str "Line " ++ fmt_int i ++ str ": Found == - consider using ===".

Definition msg_trailing (i : Z) : text :=
  str "Line " ++ fmt_int i ++ str ": Trailing whitespace".

Definition msg_braces (open_braces : Z) : text :=
  str "Unbalanced braces: " ++ fmt_int open_braces ++ str " extra "
  ++ (if (open_braces >? 0)%Z then str "opening" else str "closing")
  ++ str " braces".

(** The three conditions of the first loop. *)
Definition rule_console (line : text) : bool :=
  py_in (str "console.log(") line && negb (py_in (str "debugLog") line).

Definition is_comment_line (line : text) : bool :=
  startswith (str "//") (strip line).

Definition rule_loose_eq (line : text) : bool :=
  negb (is_comment_line line) && re_search loose_eq_re line.

Definition rule_trailing (line : text) : bool :=
  negb (text_eqb (rstrip line) (rstrip_chars [LF] line)).

(** Body of the first loop: [issues.append] under each condition. *)
Definition check_line (issues : list text) (i : Z) (line : text) : list text :=
  let issues := if rule_console line then issues ++ [msg_console i] else issues in
  let issues := if rule_loose_eq line then issues ++ [msg_loose_eq i] else issues in
  let issues := if rule_trailing line then issues ++ [msg_trailing i] else issues in
  issues.

(** The two [re.sub] calls of the second loop. *)
Definition clean_line (line : text) : text :=
  re_sub block_comment_re [] (re_sub line_comment_re [] line).

(** Body of the second loop. *)
Definition count_braces (open_braces : Z) (line : text) : Z :=
  let clean := clean_line line in
  (open_braces + count_char c_lbrace clean - count_char c_rbrace clean)%Z.

Definition line_issues (lines : list text) : list text :=
  fold_left (fun issues il => check_line issues (fst il) (snd il))
            (enumerate 1 lines) [].

Definition brace_balance (lines : list text) : Z :=
  fold_left (fun open_braces il => count_braces open_braces (snd il))
            (enumerate 1 lines) 0%Z.

(** Everything [check_javascript] does with [lines]. *)
Definition scan (lines : list text) : list text :=
  let issues := line_issues lines in
  let open_braces := brace_balance lines in
  if negb (open_braces =? 0)%Z then issues ++ [msg_braces open_braces]
  else issues.

(** ** Reading the file

    [open(filename, 'r')] opens in text mode with universal newlines: on
    input, "\r\n" and a lone "\r" both become "\n".  [readlines] then cuts
    the text after every "\n", each line keeping its terminator; a last
    line without terminator is kept as it is. *)

Fixpoint universal_newlines (s : text) : text :=
  match s with
  | [] => []
  | c :: s' =>
      if char_eqb c CR then
        LF :: match s' with
              | d :: s'' =>
                  if char_eqb d LF then universal_newlines s''
                  else universal_newlines s'
              | [] => []
              end
      else c :: universal_newlines s'
  end.

Fixpoint split_keepends (s : text) : list text :=
  match s with
  | [] => []
  | c :: s' =>
      if char_eqb c LF then [LF] :: split_keepends s'
      else match split_keepends s' with
           | [] => [[c]]
           | l :: ls => (c :: l) :: ls
           end
  end.

Definition readlines (content : text) : list text :=
  split_keepends (universal_newlines content).

(** ** The process: files, standard output, exceptions *)

Inductive io_error :=
| FileNotFoundError | PermissionError | IsADirectoryError
| UnicodeDecodeError | OtherOSError.

Inductive exn :=
| IOError (e : io_error)
| SystemExit (code : Z).

(** What the file system holds under a path, as seen by this process. *)
Inductive file_state :=
| CannotOpen (e : io_error)      (* [open] raises *)
| CannotRead (e : io_error)      (* [open] succeeds, reading raises *)
| Readable (content : text).     (* decoded content, newlines untranslated *)

(** Standard output as the process finds it.
    - [Absent]: descriptor 1 was closed when the interpreter started;
      [sys.stdout] is [None] and [print] does nothing.
    - [Direct room]: what is printed goes to the device at once (standard
      output unbuffered or written through).  The device takes [room] more
      prints ([None]: any number); after that [print] raises [OSError].
    - [Buffered flush_ok]: what is printed stays in the buffer of
      [sys.stdout] (a file or a pipe; the report is far smaller than the
      buffer) and is written by the flush at interpreter exit, which
      succeeds or fails. *)
Inductive device :=
| Absent
| Direct (room : option nat)
| Buffered (flush_ok : bool).

(** [stdout] is the text that has reached the device; [dev] and [buffer]
    belong to the running process. *)
Record world := mkWorld {
  files : text -> file_state;
  open_handles : nat;
  stdout : text;
  dev : device;
  buffer : text
}.

Inductive result (A : Type) :=
| Val (a : A)
| Raise (e : exn).
Arguments Raise {A} e.

Definition M (A : Type) := world -> result A * world.

Definition ret (A : Type) (a : A) : M A := fun w => (Val a, w).

Definition bind (A B : Type) (m : M A) (k : A -> M B) : M B :=
  fun w => match m w with
           | (Val a, w') => k a w'
           | (Raise e, w') => (Raise e, w')
           end.

Notation "x <- m ;; k" := (bind m (fun x => k))
  (at level 61, m at next level, right associativity).
Notation "m ;; k" := (bind m (fun _ => k))
  (at level 61, right associativity).

(** [try: body finally: cleanup] *)
Definition finally (A : Type) (body : M A) (cleanup : world -> world) : M A :=
  fun w => let (r, w') := body w in (r, cleanup w').

Definition py_open (filename : text) : M file_state :=
  fun w => match files w filename with
           | CannotOpen e => (Raise (IOError e), w)
           | st => (Val st, mkWorld (files w) (S (open_handles w)) (stdout w)
                                    (dev w) (buffer w))
           end.

Definition py_close (w : world) : world :=
  mkWorld (files w) (pred (open_handles w)) (stdout w) (dev w) (buffer w).

Definition py_readlines (f : file_state) : M (list text) :=
  fun w => match f with
           | Readable content => (Val (readlines content), w)
           | CannotRead e => (Raise (IOError e), w)
           | CannotOpen e => (Raise (IOError e), w)
           end.

(** The text [t] reaches the device. *)
Definition write (t : text) (w : world) : world :=
  mkWorld (files w) (open_handles w) (stdout w ++ t) (dev w) (buffer w).

(** The text [t] goes into the buffer of [sys.stdout]. *)
Definition enqueue (t : text) (w : world) : world :=
  mkWorld (files w) (open_handles w) (stdout w) (dev w) (buffer w ++ t).

Definition set_dev (d : device) (w : world) : world :=
  mkWorld (files w) (open_handles w) (stdout w) d (buffer w).

(** [print(s)]: the text and a newline, to standard output. *)
Definition print (s : text) : M unit :=
  fun w => match dev w with
           | Absent => (Val tt, w)
           | Direct None => (Val tt, write (s ++ [LF]) w)
           | Direct (Some (S room)) =>
               (Val tt, set_dev (Direct (Some room)) (write (s ++ [LF]) w))
           | Direct (Some O) => (Raise (IOError OtherOSError), w)
           | Buffered _ => (Val tt, enqueue (s ++ [LF]) w)
           end.

(** [sys.exit(code)] *)
Definition sys_exit (A : Type) (code : Z) : M A :=
  fun w => (Raise (SystemExit code), w).
Arguments sys_exit {A} code.

(** [for x in xs: body(x)] *)
Fixpoint for_each (A : Type) (xs : list A) (body : A -> M unit) : M unit :=
  match xs with
  | [] => ret tt
  | x :: xs' => body x ;; for_each xs' body
  end.

(** [len(l)] *)
Definition len (A : Type) (l : list A) : Z := Z.of_nat (List.length l).

Definition check_javascript (filename : text) : M (list text) :=
  lines <- (f <- py_open filename ;; finally (py_readlines f) py_close) ;;
  ret (scan lines).

Definition main : M unit :=
  issues <- check_javascript (str "script.js") ;;
  match issues with
  | _ :: _ =>
      print (str "Found " ++ fmt_int (len issues) ++ str " issues:") ;;
      for_each (firstn 20 issues) (fun issue => print (str "  " ++ issue)) ;;
      (if (len issues >? 20)%Z
       then print (str "  ... and " ++ fmt_int (len issues - 20) ++ str " more issues")
       else ret tt) ;;
      sys_exit 1
  | [] =>
      print (str "No major issues found!") ;;
      sys_exit 0
  end.

(** The flush of standard output when the interpreter exits: the buffer
    goes to the device, or the flush fails and the buffer is lost.  With
    nothing in the buffer the flush writes nothing and succeeds. *)
Definition flush_stdout (w : world) : bool * world :=
  match dev w, buffer w with
  | Buffered true, b =>
      (true, mkWorld (files w) (open_handles w) (stdout w ++ b) (dev w) [])
  | Buffered false, _ :: _ => (false, w)
  | _, _ => (true, w)
  end.

(** Exit status of the interpreter: 120 when the flush of standard output
    at exit failed; otherwise the code given to [sys.exit], 1 after any
    other uncaught exception (the traceback goes to standard error), 0
    when the module body runs to its end. *)
Definition exit_status (A : Type) (r : result A) (flushed : bool) : Z :=
  if flushed then
    match r with
    | Val _ => 0
    | Raise (SystemExit code) => code
    | Raise (IOError _) => 1
    end
  else 120.

(** The process starts with the standard output it is given and an empty
    buffer. *)
Definition start (d : device) (w : world) : world :=
  mkWorld (files w) (open_handles w) (stdout w) d [].

(** One run of the program from the world [w], with standard output [d]:
    exit status and final world. *)
Definition run (d : device) (w : world) : Z * world :=
  let (r, w1) := main (start d w) in
  let (flushed, w2) := flush_stdout w1 in
  (exit_status r flushed, w2).

(** Text that reaches standard output in a run started in [w]. *)
Definition output (d : device) (w : world) : text :=
  skipn (List.length (stdout w)) (stdout (snd (run d w))).

(** * Vocabulary of the statements *)

(** ** Text predicates *)

(** [s] contains [needle] as a contiguous block. *)
Definition substring (needle s : text) : Prop :=
  exists pre post, s = pre ++ needle ++ post.

(** Stripping from the right, one character at a time. *)
Definition rdrop (p : char -> bool) (s : text) : text :=
  rev (dropwhile p (rev s)).

(** A text ends with a character satisfying [p]. *)
Definition ends_with (p : char -> bool) (s : text) : Prop :=
  exists s' c, s = s' ++ [c] /\ p c = true.

(** The test [rstrip('\n')] applies to each trailing character. *)
Definition is_LF (c : char) : bool := existsb (char_eqb c) [LF].

(** ** The two loops in closed form *)

(** Issues contributed by one line, in rule order. *)
Definition issues_of_line (i : Z) (line : text) : list text :=
  (if rule_console line then [msg_console i] else [])
  ++ (if rule_loose_eq line then [msg_loose_eq i] else [])
  ++ (if rule_trailing line then [msg_trailing i] else []).

Fixpoint issues_from (start : Z) (lines : list text) : list text :=
  match lines with
  | [] => []
  | line :: lines' => issues_of_line start line ++ issues_from (start + 1) lines'
  end.

Definition brace_delta (line : text) : Z :=
  (count_char c_lbrace (clean_line line) - count_char c_rbrace (clean_line line))%Z.

Fixpoint sumZ (l : list Z) : Z :=
  match l with
  | [] => 0
  | x :: l' => (x + sumZ l')%Z
  end.

(** ** Rules and their messages *)

(** The last character identifies the rule. *)
Definition last_char (s : text) : char := last s 0%N.

Inductive rule := Console | LooseEq | Trailing.

Definition fires (r : rule) (line : text) : bool :=
  match r with
  | Console => rule_console line
  | LooseEq => rule_loose_eq line
  | Trailing => rule_trailing line
  end.

Definition msg (r : rule) (i : Z) : text :=
  match r with
  | Console => msg_console i
  | LooseEq => msg_loose_eq i
  | Trailing => msg_trailing i
  end.

Definition rule_eqb (a b : rule) : bool :=
  match a, b with
  | Console, Console | LooseEq, LooseEq | Trailing, Trailing => true
  | _, _ => false
  end.

Definition occurrences (m : text) (issues : list text) : nat :=
  count_occ text_eq_dec issues m.

Definition space_or_tab (c : char) : Prop := c = SP \/ c = TAB.

(** ** Loose equality *)

(** An occurrence of [==] that has a character before it which is none of
    [= ! < >] and a character after it which is not [=]. *)
Definition loose_occurrence (line : text) : Prop :=
  exists pre c0 c3 post,
    line = pre ++ [c0; c_eq; c_eq; c3] ++ post
    /\ ~ In c0 operator_lead /\ c3 <> c_eq.

(** The line, with leading whitespace removed, begins with [//]. *)
Definition comment_line (line : text) : Prop :=
  exists ws rest, line = ws ++ str "//" ++ rest /\ forallb isspace ws = true.

(** Following the spec's words: [pre] and [post] delimit an occurrence of
    two consecutive [=] in [line] that is not immediately preceded by one
    of [= ! < >] and not immediately followed by [=]. *)
Definition eqeq_at (line pre post : text) : Prop :=
  line = pre ++ [c_eq; c_eq] ++ post
  /\ (forall pre' c, pre = pre' ++ [c] -> ~ In c operator_lead)
  /\ (forall c post', post = c :: post' -> c <> c_eq).

Definition claimed_loose_occurrence (line : text) : Prop :=
  exists pre post, eqeq_at line pre post.

(** Does the pattern match with its first character at index [j]?  The
    [==] of such a match sits at indices [j + 1] and [j + 2]. *)
Definition loose_match_at (line : text) (j : nat) : bool :=
  match match_here loose_eq_re (skipn j line) with
  | Some _ => true
  | None => false
  end.

(** ** Lines of a file *)

(** A line is a non-empty text whose only newline, if any, is its last
    character. *)
Definition line_shape (l : text) : Prop :=
  exists body, ~ In LF body /\ (l = body ++ [LF] \/ (l = body /\ body <> [])).

(** A file whose lines all end with CR LF. *)
Definition crlf_file (bodies : list text) : text :=
  List.concat (map (fun b => b ++ [CR; LF]) bodies).

(** ** Report *)

(** The file name [__main__] passes to [check_javascript]. *)
Definition script : text := str "script.js".

(** Lines of text as they appear on standard output. *)
Definition unlines (ls : list text) : text :=
  flat_map (fun l => l ++ [LF]) ls.

Definition indent (issue : text) : text := str "  " ++ issue.

Definition header (n : Z) : text :=
  str "Found " ++ fmt_int n ++ str " issues:".

Definition more (n : Z) : text :=
  str "  ... and " ++ fmt_int n ++ str " more issues".

(** The lines the reporter prints for a list of issues. *)
Definition report (issues : list text) : list text :=
  match issues with
  | [] => [str "No major issues found!"]
  | _ :: _ =>
      [header (len issues)] ++ map indent (firstn 20 issues)
      ++ (if (20 <? len issues)%Z then [more (len issues - 20)] else [])
  end.

Definition status_of (issues : list text) : Z :=
  match issues with
  | [] => 0
  | _ :: _ => 1
  end.

(** Closes a goal from [H : In LF t] for a literal [t]. *)
Ltac no_LF_literal H :=
  vm_compute in H;
  repeat (destruct H as [H | H]; [discriminate H|]); destruct H.

(** A file of 25 lines, each with trailing whitespace. *)
Definition twenty_five_lines : text :=
  List.concat (repeat (str "x = 1; " ++ [LF]) 25).

(** ** Comments and braces *)

(** The text of a line up to its first [//]. *)
Fixpoint before_line_comment (s : text) : text :=
  match s with
  | [] => []
  | c :: s' =>
      if startswith [c_slash; c_slash] s then [] else c :: before_line_comment s'
  end.

(** The text after the first [*/] of [s], if there is one. *)
Fixpoint find_close (s : text) : option text :=
  match s with
  | [] => None
  | c :: s' =>
      if lit c_star c && startswith [c_slash] s' then Some (tl s')
      else find_close s'
  end.

(** [s] begins with a block comment that is closed in [s]: the text after
    that comment. *)
Definition block_comment_at (s : text) : option text :=
  match s with
  | c :: d :: rest =>
      if lit c_slash c && lit c_star d then find_close rest else None
  | _ => None
  end.

(** Removal of the block comments that are opened and closed in [s], from
    left to right; [fuel] bounds the number of steps. *)
Fixpoint strip_blocks_fuel (fuel : nat) (s : text) : text :=
  match fuel, s with
  | O, _ => s
  | _, [] => []
  | S fuel', c :: s' =>
      match block_comment_at s with
      | Some after => strip_blocks_fuel fuel' after
      | None => c :: strip_blocks_fuel fuel' s'
      end
  end.

Definition strip_blocks (s : text) : text :=
  strip_blocks_fuel (List.length s) s.

(** A line without its terminator. *)
Definition body_of (l : text) : text := rstrip_chars [LF] l.

(** What the second loop keeps of a line, in its two steps and in their
    order: first the line is cut at its first [//], wherever that stands
    (inside a block comment too); then, in what is left, the block comments
    that are opened and closed there are removed.  So in [/* { // */] the
    cut leaves [/* { ], no block comment is closed in it, and the brace
    stays. *)
Definition outside_comments (l : text) : text :=
  strip_blocks (before_line_comment (body_of l)).

(** Occurrences of [c] in what [outside_comments] keeps of the lines. *)
Definition brace_count (c : char) (lines : list text) : Z :=
  sumZ (map (fun l => count_char c (outside_comments l)) lines).

(** Following the claim's words: braces outside single-line comments. *)
Definition claimed_brace_count (c : char) (lines : list text) : Z :=
  sumZ (map (fun l => count_char c (before_line_comment (body_of l))) lines).

Definition is_terminator (nl : text) : Prop := nl = [] \/ nl = [LF].

Definition close_re : regex := [Cls (lit c_star) Once; Cls (lit c_slash) Once].

Definition has_line_number (m : text) : bool := startswith (str "Line ") m.
Definition is_brace_issue (m : text) : bool := startswith (str "Unbalanced braces") m.

(** ** Standard output that works, and what a failing one lets through *)

(** Every print reaches the device. *)
Definition reliable (d : device) : bool :=
  match d with
  | Direct None | Buffered true => true
  | _ => false
  end.

(** Of the lines [ls] printed in turn, those that reach the device. *)
Definition delivered (d : device) (ls : list text) : list text :=
  match d with
  | Absent => []
  | Direct None => ls
  | Direct (Some room) => firstn room ls
  | Buffered true => ls
  | Buffered false => []
  end.

(** Exit status of a run that prints the lines [ls] and then calls
    [sys.exit(code)]. *)
Definition status_after (d : device) (ls : list text) (code : Z) : Z :=
  match d with
  | Absent | Direct None | Buffered true => code
  | Direct (Some room) => if (List.length ls <=? room)%nat then code else 1
  | Buffered false => match ls with [] => code | _ :: _ => 120 end
  end.

(** ** More vocabulary: positions in the file *)

(** A non-empty text whose last character is not a newline: the last line
    of such a file has no terminator. *)
Definition unterminated (s : text) : bool :=
  match s with
  | [] => false
  | _ :: _ => negb (char_eqb (last s 0%N) LF)
  end.

(** Number of newline characters of a text. *)
Definition newlines (s : text) : nat := Z.to_nat (count_char LF s).

(** A file whose lines all end with LF. *)
Definition lf_file (bodies : list text) : text :=
  List.concat (map (fun b => b ++ [LF]) bodies).

(** A line made of two block comments with text between them. *)
Definition two_comments (a mid b nl : text) : text :=
  str "/*" ++ a ++ str "*/" ++ mid ++ str "/*" ++ b ++ str "*/" ++ nl.

(** * Properties *)

(** ** Lists and text *)

Lemma char_eqb_eq (a b : char) : char_eqb a b = true <-> a = b.
Proof. apply N.eqb_eq. Qed.

Lemma char_eqb_neq (a b : char) : char_eqb a b = false <-> a <> b.
Proof. apply N.eqb_neq. Qed.

Lemma char_eqb_refl (a : char) : char_eqb a a = true.
Proof. apply N.eqb_refl. Qed.

Lemma text_eqb_eq (a b : text) : text_eqb a b = true <-> a = b.
Proof.
  unfold text_eqb. destruct (text_eq_dec a b); split; congruence.
Qed.

Lemma text_eqb_neq (a b : text) : text_eqb a b = false <-> a <> b.
Proof.
  unfold text_eqb. destruct (text_eq_dec a b); split; congruence.
Qed.

Lemma startswith_spec (p s : text) :
  startswith p s = true <-> exists post, s = p ++ post.
Proof.
  revert s. induction p as [|a p IH]; intros s; simpl.
  - split; eauto.
  - destruct s as [|c s].
    + split; [discriminate|]. intros [post H]. discriminate.
    + rewrite andb_true_iff, char_eqb_eq, IH. split.
      * intros [-> [post ->]]. eauto.
      * intros [post H]. injection H as -> ->. eauto.
Qed.

Lemma py_in_spec (needle hay : text) :
  py_in needle hay = true <-> substring needle hay.
Proof.
  unfold substring. induction hay as [|c hay IH].
  - simpl. rewrite orb_false_r, startswith_spec. split.
    + intros [post H]. exists [], post. exact H.
    + intros [pre [post H]]. destruct pre; simpl in H.
      * eauto.
      * discriminate.
  - cbn [py_in]. rewrite orb_true_iff, startswith_spec, IH. split.
    + intros [[post H] | [pre [post H]]].
      * exists [], post. exact H.
      * exists (c :: pre), post. simpl. now rewrite H.
    + intros [pre [post H]]. destruct pre as [|d pre]; simpl in H.
      * left. eauto.
      * right. injection H as _ H. eauto.
Qed.

Lemma rdrop_nil p : rdrop p [] = [].
Proof. reflexivity. Qed.

Lemma rdrop_snoc p s c :
  rdrop p (s ++ [c]) = if p c then rdrop p s else s ++ [c].
Proof.
  unfold rdrop. rewrite rev_app_distr. simpl.
  destruct (p c); [reflexivity|].
  simpl. now rewrite rev_involutive.
Qed.

Lemma rdrop_app_all p s t :
  forallb p t = true -> rdrop p (s ++ t) = rdrop p s.
Proof.
  induction t as [|c t IH] using rev_ind; intros H.
  - now rewrite app_nil_r.
  - rewrite forallb_app in H. simpl in H.
    apply andb_true_iff in H as [Ht Hc]. rewrite andb_true_r in Hc.
    rewrite app_assoc, rdrop_snoc, Hc. auto.
Qed.

Lemma ends_with_snoc p s c : ends_with p (s ++ [c]) <-> p c = true.
Proof.
  split.
  - intros [s' [d [H Hd]]]. apply app_inj_tail in H as [_ ->]. exact Hd.
  - intros H. exists s, c. auto.
Qed.

Lemma ends_with_nil p : ~ ends_with p [].
Proof. intros [s' [c [H _]]]. destruct s'; discriminate. Qed.

Lemma rdrop_length p s : (List.length (rdrop p s) <= List.length s)%nat.
Proof.
  induction s as [|c s IH] using rev_ind.
  - simpl. lia.
  - rewrite rdrop_snoc. destruct (p c).
    + rewrite length_app. simpl. lia.
    + lia.
Qed.

Lemma rdrop_fixed p s : rdrop p s = s <-> ~ ends_with p s.
Proof.
  destruct s as [|c s _] using rev_ind.
  - split; [intros _; apply ends_with_nil | reflexivity].
  - rewrite rdrop_snoc, ends_with_snoc. destruct (p c) eqn:Hc.
    + split; [|congruence]. intros H. exfalso.
      pose proof (rdrop_length p s) as L. rewrite H, length_app in L.
      simpl in L. lia.
    + split; [congruence | reflexivity].
Qed.

Lemma rdrop_not_ends p s : ~ ends_with p (rdrop p s).
Proof.
  induction s as [|c s IH] using rev_ind.
  - apply ends_with_nil.
  - rewrite rdrop_snoc. destruct (p c) eqn:Hc; [exact IH|].
    rewrite ends_with_snoc. congruence.
Qed.

Lemma rdrop_decompose p s :
  exists t, s = rdrop p s ++ t /\ forallb p t = true.
Proof.
  induction s as [|c s IH] using rev_ind.
  - exists []. auto.
  - rewrite rdrop_snoc. destruct (p c) eqn:Hc.
    + destruct IH as [t [E F]]. exists (t ++ [c]). split.
      * rewrite app_assoc, <- E. reflexivity.
      * rewrite forallb_app, F. simpl. now rewrite Hc.
    + exists []. now rewrite app_nil_r.
Qed.

Lemma is_LF_spec c : is_LF c = true <-> c = LF.
Proof.
  unfold is_LF. simpl. rewrite orb_false_r. apply char_eqb_eq.
Qed.

Lemma is_LF_isspace c : is_LF c = true -> isspace c = true.
Proof. rewrite is_LF_spec. intros ->. reflexivity. Qed.

Lemma rstrip_rdrop s : rstrip s = rdrop isspace s.
Proof. reflexivity. Qed.

Lemma rstrip_LF_rdrop s : rstrip_chars [LF] s = rdrop is_LF s.
Proof. reflexivity. Qed.

(** The test of the trailing-whitespace rule, read on the text: once the
    trailing newlines are gone, the last character is whitespace. *)
Lemma rule_trailing_ends_with (line : text) :
  rule_trailing line = true <-> ends_with isspace (rstrip_chars [LF] line).
Proof.
  unfold rule_trailing. rewrite negb_true_iff, text_eqb_neq.
  rewrite rstrip_rdrop, rstrip_LF_rdrop.
  destruct (rdrop_decompose is_LF line) as [t [E F]].
  assert (Ht : forallb isspace t = true).
  { rewrite forallb_forall in *. intros c Hc. apply is_LF_isspace. auto. }
  assert (R : rdrop isspace line = rdrop isspace (rdrop is_LF line)).
  { rewrite E at 1. now apply rdrop_app_all. }
  rewrite R. rewrite rdrop_fixed. split.
  - intros H. destruct (rdrop is_LF line) as [|c s _] using rev_ind.
    + exfalso. apply H. apply ends_with_nil.
    + rewrite ends_with_snoc. destruct (isspace c) eqn:Hc; [reflexivity|].
      exfalso. apply H. rewrite ends_with_snoc. congruence.
  - intros H1 H2. contradiction.
Qed.

(** ** The first loop, line by line *)

Lemma check_line_app issues i line :
  check_line issues i line = issues ++ issues_of_line i line.
Proof.
  unfold check_line, issues_of_line.
  destruct (rule_console line), (rule_loose_eq line), (rule_trailing line);
    simpl; repeat rewrite <- app_assoc; simpl; now rewrite ?app_nil_r.
Qed.

Lemma fold_check_line lines : forall start acc,
  fold_left (fun issues il => check_line issues (fst il) (snd il))
            (enumerate start lines) acc
  = acc ++ issues_from start lines.
Proof.
  induction lines as [|l lines IH]; intros start acc; simpl.
  - now rewrite app_nil_r.
  - rewrite IH, check_line_app. now rewrite app_assoc.
Qed.

Lemma line_issues_eq lines : line_issues lines = issues_from 1 lines.
Proof. unfold line_issues. now rewrite fold_check_line. Qed.

(** ** The second loop *)

Lemma fold_count_braces lines : forall start acc,
  fold_left (fun open_braces il => count_braces open_braces (snd il))
            (enumerate start lines) acc
  = (acc + sumZ (map brace_delta lines))%Z.
Proof.
  induction lines as [|l lines IH]; intros start acc; simpl.
  - lia.
  - rewrite IH. unfold count_braces, brace_delta. lia.
Qed.

Lemma brace_balance_eq lines :
  brace_balance lines = sumZ (map brace_delta lines).
Proof. unfold brace_balance. now rewrite fold_count_braces. Qed.

Lemma sumZ_sub (f g : text -> Z) lines :
  sumZ (map (fun l => (f l - g l)%Z) lines)
  = (sumZ (map f lines) - sumZ (map g lines))%Z.
Proof. induction lines; simpl; lia. Qed.

(** ** Messages are told apart *)

Lemma N_of_ascii_inj a b : N_of_ascii a = N_of_ascii b -> a = b.
Proof.
  intros H. rewrite <- (ascii_N_embedding a), <- (ascii_N_embedding b).
  now rewrite H.
Qed.

Lemma list_ascii_of_string_inj s t :
  list_ascii_of_string s = list_ascii_of_string t -> s = t.
Proof.
  intros H. rewrite <- (string_of_list_ascii_of_string s).
  rewrite <- (string_of_list_ascii_of_string t). now rewrite H.
Qed.

Lemma str_inj s t : str s = str t -> s = t.
Proof.
  unfold str. intros H. apply list_ascii_of_string_inj.
  revert H. generalize (list_ascii_of_string s) (list_ascii_of_string t).
  induction l as [|a l IH]; intros [|b m] H; simpl in H; try discriminate.
  - reflexivity.
  - injection H as H1 H2. f_equal; [now apply N_of_ascii_inj | now apply IH].
Qed.

Lemma fmt_int_inj a b : fmt_int a = fmt_int b -> a = b.
Proof.
  unfold fmt_int. intros H. apply str_inj in H.
  assert (E : Z.to_int a = Z.to_int b).
  { pose proof (NilEmpty.isi (Z.to_int a)) as Ha.
    pose proof (NilEmpty.isi (Z.to_int b)) as Hb.
    rewrite H in Ha. congruence. }
  rewrite <- (DecimalZ.of_to a), <- (DecimalZ.of_to b). now rewrite E.
Qed.

Lemma msg_console_inj i j : msg_console i = msg_console j -> i = j.
Proof.
  unfold msg_console. intros H. apply app_inv_head in H.
  apply app_inv_tail in H. now apply fmt_int_inj.
Qed.

Lemma msg_loose_eq_inj i j : msg_loose_eq i = msg_loose_eq j -> i = j.
Proof.
  unfold msg_loose_eq. intros H. apply app_inv_head in H.
  apply app_inv_tail in H. now apply fmt_int_inj.
Qed.

Lemma msg_trailing_inj i j : msg_trailing i = msg_trailing j -> i = j.
Proof.
  unfold msg_trailing. intros H. apply app_inv_head in H.
  apply app_inv_tail in H. now apply fmt_int_inj.
Qed.

Lemma last_char_app s t : t <> [] -> last_char (s ++ t) = last_char t.
Proof.
  intros Ht. unfold last_char. induction s as [|c s IH]; simpl.
  - reflexivity.
  - destruct (s ++ t) eqn:E.
    + apply app_eq_nil in E as [_ E]. contradiction.
    + exact IH.
Qed.

Lemma last_msg_console i : last_char (msg_console i) = 103%N.   (* g *)
Proof.
  unfold msg_console. rewrite !last_char_app; [reflexivity | discriminate |].
  destruct (fmt_int i); discriminate.
Qed.

Lemma last_msg_loose_eq i : last_char (msg_loose_eq i) = 61%N.  (* = *)
Proof.
  unfold msg_loose_eq. rewrite !last_char_app; [reflexivity | discriminate |].
  destruct (fmt_int i); discriminate.
Qed.

Lemma last_msg_trailing i : last_char (msg_trailing i) = 101%N. (* e *)
Proof.
  unfold msg_trailing. rewrite !last_char_app; [reflexivity | discriminate |].
  destruct (fmt_int i); discriminate.
Qed.

Lemma last_msg_braces n : last_char (msg_braces n) = 115%N.     (* s *)
Proof.
  unfold msg_braces. rewrite !app_assoc.
  rewrite last_char_app; [reflexivity | discriminate].
Qed.

(** ** Counting the issues of one rule on one line *)

Lemma last_msg r i :
  last_char (msg r i)
  = match r with Console => 103%N | LooseEq => 61%N | Trailing => 101%N end.
Proof.
  destruct r; [apply last_msg_console | apply last_msg_loose_eq
              | apply last_msg_trailing].
Qed.

Lemma msg_inj r r' i j : msg r i = msg r' j -> r = r' /\ i = j.
Proof.
  intros H. assert (L := f_equal last_char H). rewrite !last_msg in L.
  destruct r, r'; try discriminate L; split; try reflexivity;
    [ now apply msg_console_inj | now apply msg_loose_eq_inj
    | now apply msg_trailing_inj ].
Qed.

Lemma msg_not_braces r i n : msg r i <> msg_braces n.
Proof.
  intros H. assert (L := f_equal last_char H).
  rewrite last_msg, last_msg_braces in L. destruct r; discriminate.
Qed.

Lemma occurrences_app m a b :
  occurrences m (a ++ b) = (occurrences m a + occurrences m b)%nat.
Proof. apply count_occ_app. Qed.

Lemma occurrences_single r' i r j :
  occurrences (msg r j) [msg r' i]
  = if rule_eqb r' r && (i =? j)%Z then 1%nat else 0%nat.
Proof.
  unfold occurrences. simpl.
  destruct (text_eq_dec (msg r' i) (msg r j)) as [E|E].
  - apply msg_inj in E as [-> ->]. rewrite Z.eqb_refl.
    now destruct r.
  - destruct (rule_eqb r' r && (i =? j)%Z) eqn:B; [|reflexivity].
    apply andb_true_iff in B as [B1 B2]. apply Z.eqb_eq in B2. subst j.
    destruct r, r'; try discriminate B1; now contradiction E.
Qed.

Lemma issues_of_line_fires i line :
  issues_of_line i line
  = (if fires Console line then [msg Console i] else [])
    ++ (if fires LooseEq line then [msg LooseEq i] else [])
    ++ (if fires Trailing line then [msg Trailing i] else []).
Proof. reflexivity. Qed.

Lemma occurrences_issues_of_line r i j line :
  occurrences (msg r j) (issues_of_line i line)
  = if fires r line && (i =? j)%Z then 1%nat else 0%nat.
Proof.
  rewrite issues_of_line_fires, !occurrences_app.
  assert (C : forall r' (b : bool),
    occurrences (msg r j) (if b then [msg r' i] else [])
    = if b && (rule_eqb r' r && (i =? j)%Z) then 1%nat else 0%nat).
  { intros r' [|]; [apply occurrences_single | reflexivity]. }
  rewrite !C.
  destruct r; simpl;
    destruct (rule_console line), (rule_loose_eq line), (rule_trailing line),
      (i =? j)%Z; reflexivity.
Qed.

Lemma occurrences_before r j lines : forall start,
  (j < start)%Z -> occurrences (msg r j) (issues_from start lines) = 0%nat.
Proof.
  induction lines as [|l lines IH]; intros start H; simpl.
  - reflexivity.
  - rewrite occurrences_app, occurrences_issues_of_line, IH by lia.
    replace (start =? j)%Z with false by (symmetry; apply Z.eqb_neq; lia).
    now rewrite andb_false_r.
Qed.

Lemma occurrences_issues_from r lines : forall start n line,
  nth_error lines n = Some line ->
  occurrences (msg r (start + Z.of_nat n)) (issues_from start lines)
  = if fires r line then 1%nat else 0%nat.
Proof.
  induction lines as [|l lines IH]; intros start n line H.
  - destruct n; discriminate.
  - cbn [issues_from]. rewrite occurrences_app, occurrences_issues_of_line.
    destruct n as [|n]; cbn [nth_error] in H.
    + injection H as ->. cbn [Z.of_nat].
      rewrite Z.add_0_r, Z.eqb_refl, andb_true_r.
      rewrite occurrences_before by lia. now destruct (fires r line).
    + replace (start =? start + Z.of_nat (S n))%Z with false
        by (symmetry; apply Z.eqb_neq; lia).
      rewrite andb_false_r, Nat.add_0_l.
      replace (start + Z.of_nat (S n))%Z with (start + 1 + Z.of_nat n)%Z by lia.
      now apply IH.
Qed.

Lemma occurrences_scan r lines n line :
  nth_error lines n = Some line ->
  occurrences (msg r (Z.of_nat n + 1)) (scan lines)
  = if fires r line then 1%nat else 0%nat.
Proof.
  intros H. unfold scan. rewrite line_issues_eq.
  replace (Z.of_nat n + 1)%Z with (1 + Z.of_nat n)%Z by lia.
  destruct (negb (brace_balance lines =? 0)%Z).
  - rewrite occurrences_app, (occurrences_issues_from r _ _ _ H).
    assert (B : occurrences (msg r (1 + Z.of_nat n))
                  [msg_braces (brace_balance lines)] = 0%nat).
    { unfold occurrences. cbn [count_occ].
      destruct (text_eq_dec (msg_braces (brace_balance lines))
                            (msg r (1 + Z.of_nat n))) as [E|E];
        [|reflexivity].
      symmetry in E. now apply msg_not_braces in E. }
    rewrite B. lia.
  - now apply occurrences_issues_from.
Qed.

Lemma In_scan_iff r lines n line :
  nth_error lines n = Some line ->
  In (msg r (Z.of_nat n + 1)) (scan lines) <-> fires r line = true.
Proof.
  intros H. pose proof (occurrences_scan r _ _ H) as C.
  unfold occurrences in C. split.
  - intros HI. apply (count_occ_In text_eq_dec) in HI.
    destruct (fires r line); [reflexivity | lia].
  - intros F. rewrite F in C. apply (count_occ_In text_eq_dec). lia.
Qed.

(** ** Logging-call rule *)

(** C5: for every line of the input, the logging-call issue carrying the
    line's 1-based number is among the issues exactly when the line
    contains the text [console.log(] and does not contain the text
    [debugLog]; containment is plain substring containment, whatever
    surrounds the match, and the issue is never reported twice. *)
Theorem logging_rule_by_substring (lines : list text) (n : nat) (line : text) :
  nth_error lines n = Some line ->
  (In (msg_console (Z.of_nat n + 1)) (scan lines) <->
   substring (str "console.log(") line /\ ~ substring (str "debugLog") line)
  /\ (occurrences (msg_console (Z.of_nat n + 1)) (scan lines) <= 1)%nat
  /\ msg_console (Z.of_nat n + 1)
     = str "Line " ++ fmt_int (Z.of_nat n + 1)
       ++ str ": Found console.log - should use debugLog".
Proof.
  intros H. split; [|split].
  - rewrite (In_scan_iff Console _ _ H). cbn [fires]. unfold rule_console.
    rewrite andb_true_iff, negb_true_iff, <- !py_in_spec.
    split; intros [A B]; split; auto.
    + now rewrite B.
    + now apply not_true_is_false.
  - change (msg_console (Z.of_nat n + 1)) with (msg Console (Z.of_nat n + 1)).
    rewrite (occurrences_scan Console _ _ H). destruct (fires Console line); lia.
  - reflexivity.
Qed.

Lemma logging_rule_by_substring_witness :
  In (msg_console 2) (scan [str "let x = 1;"; str "myconsole.log(x)"]).
Proof.
  apply (proj1 (logging_rule_by_substring
                  [str "let x = 1;"; str "myconsole.log(x)"] 1 eq_refl)).
  split.
  - exists (str "my"), (str "x)"). reflexivity.
  - rewrite <- py_in_spec. vm_compute. discriminate.
Defined.

(** ** Trailing-whitespace rule *)

Lemma rule_trailing_space_tab body ws :
  ws <> [] -> Forall space_or_tab ws ->
  rule_trailing (body ++ ws ++ [LF]) = true.
Proof.
  intros Hne Hws. apply rule_trailing_ends_with.
  rewrite rstrip_LF_rdrop, app_assoc, rdrop_snoc.
  replace (is_LF LF) with true by reflexivity.
  destruct ws as [|c ws _] using rev_ind; [contradiction|].
  apply Forall_app in Hws as [_ Hc]. inversion Hc as [|? ? Hc' _]; subst.
  rewrite app_assoc, rdrop_snoc.
  destruct Hc' as [-> | ->]; cbn [is_LF existsb char_eqb N.eqb SP TAB LF Pos.eqb orb];
    apply ends_with_snoc; reflexivity.
Qed.

Lemma rule_trailing_clean body nl :
  nl = [] \/ nl = [LF] -> ~ ends_with isspace body ->
  rule_trailing (body ++ nl) = false.
Proof.
  intros Hnl Hb. apply not_true_is_false. rewrite rule_trailing_ends_with.
  rewrite rstrip_LF_rdrop, rdrop_app_all by (destruct Hnl as [-> | ->]; reflexivity).
  assert (F : rdrop is_LF body = body).
  { apply rdrop_fixed. intros [s [c [E Hc]]]. apply Hb. exists s, c.
    split; [exact E | now apply is_LF_isspace]. }
  now rewrite F.
Qed.

(** C6: the trailing-whitespace issue of a line is reported once when
    [rstrip()] and [rstrip('\n')] disagree on the line and not at all when
    they agree; so it is reported exactly once for a line that ends with
    spaces or tabs before its newline, and never for a line whose text
    before the newline terminator (if any) is empty or ends with a
    character that is not whitespace. *)
Theorem trailing_rule_spec (lines : list text) (n : nat) (line : text) :
  nth_error lines n = Some line ->
  occurrences (msg_trailing (Z.of_nat n + 1)) (scan lines)
  = (if text_eq_dec (rstrip line) (rstrip_chars [LF] line) then 0 else 1)%nat
  /\ (forall body ws,
        line = body ++ ws ++ [LF] -> ws <> [] -> Forall space_or_tab ws ->
        occurrences (msg_trailing (Z.of_nat n + 1)) (scan lines) = 1%nat)
  /\ (forall body nl,
        line = body ++ nl -> nl = [] \/ nl = [LF] ->
        ~ ends_with isspace body ->
        occurrences (msg_trailing (Z.of_nat n + 1)) (scan lines) = 0%nat).
Proof.
  intros H.
  change (msg_trailing (Z.of_nat n + 1)) with (msg Trailing (Z.of_nat n + 1)).
  rewrite (occurrences_scan Trailing _ _ H). cbn [fires].
  split; [|split].
  - unfold rule_trailing, text_eqb.
    now destruct (text_eq_dec (rstrip line) (rstrip_chars [LF] line)).
  - intros body ws -> Hne Hws. now rewrite rule_trailing_space_tab.
  - intros body nl -> Hnl Hb. now rewrite rule_trailing_clean.
Qed.

Lemma trailing_rule_spec_witness :
  occurrences (msg_trailing 2)
    (scan [str "a;" ++ [LF]; str "b;" ++ [SP; TAB] ++ [LF]; str "c;" ++ [LF]])
  = 1%nat
  /\ occurrences (msg_trailing 3)
       (scan [str "a;" ++ [LF]; str "b;" ++ [SP; TAB] ++ [LF]; str "c;" ++ [LF]])
     = 0%nat.
Proof.
  split.
  - apply (proj1 (proj2 (trailing_rule_spec
             [str "a;" ++ [LF]; str "b;" ++ [SP; TAB] ++ [LF]; str "c;" ++ [LF]]
             1 eq_refl)) (str "b;") [SP; TAB]).
    + reflexivity.
    + discriminate.
    + constructor; [left; reflexivity|].
      constructor; [right; reflexivity | constructor].
  - apply (proj2 (proj2 (trailing_rule_spec
             [str "a;" ++ [LF]; str "b;" ++ [SP; TAB] ++ [LF]; str "c;" ++ [LF]]
             2 eq_refl)) (str "c;") [LF]).
    + reflexivity.
    + right; reflexivity.
    + change (str "c;") with ([99%N] ++ [59%N]). rewrite ends_with_snoc.
      vm_compute. discriminate.
Defined.

(** ** Loose-equality rule *)

(** The pattern [[^=!<>]==[^=]] at the head of a text. *)
Lemma match_loose_eq_spec (s rest : text) :
  match_here loose_eq_re s = Some rest <->
  exists c0 c3, s = c0 :: c_eq :: c_eq :: c3 :: rest
                /\ ~ In c0 operator_lead /\ c3 <> c_eq.
Proof.
  assert (NI : forall c, not_in operator_lead c = true <-> ~ In c operator_lead).
  { intros c. unfold not_in. rewrite negb_true_iff. split.
    - intros H HI. assert (E : existsb (char_eqb c) operator_lead = true).
      { apply existsb_exists. exists c. split; [exact HI | apply char_eqb_refl]. }
      congruence.
    - intros H. apply not_true_is_false. intros E.
      apply existsb_exists in E as [x [Hx E]]. apply char_eqb_eq in E.
      subst x. contradiction. }
  assert (NE : forall c, not_in [c_eq] c = true <-> c <> c_eq).
  { intros c. unfold not_in. simpl. rewrite orb_false_r, negb_true_iff.
    apply char_eqb_neq. }
  split.
  - intros M.
    destruct s as [|c0 s]; [discriminate|]. cbn [match_here loose_eq_re] in M.
    destruct (not_in operator_lead c0) eqn:H0; [|discriminate].
    destruct s as [|c1 s]; [discriminate|].
    destruct (lit c_eq c1) eqn:H1; [|discriminate].
    destruct s as [|c2 s]; [discriminate|].
    destruct (lit c_eq c2) eqn:H2; [|discriminate].
    destruct s as [|c3 s]; [discriminate|].
    destruct (not_in [c_eq] c3) eqn:H3; [|discriminate].
    injection M as <-. apply char_eqb_eq in H1, H2. subst c1 c2.
    exists c0, c3. rewrite <- NI, <- NE. auto.
  - intros [c0 [c3 [-> [H0 H3]]]]. cbn [match_here loose_eq_re].
    apply NI in H0. apply NE in H3. rewrite H0.
    unfold lit. rewrite char_eqb_refl, H3. reflexivity.
Qed.

Lemma re_search_spec (re : regex) (s : text) :
  re_search re s = true <->
  exists pre suf rest, s = pre ++ suf /\ match_here re suf = Some rest.
Proof.
  induction s as [|c s IH].
  - cbn [re_search]. destruct (match_here re []) as [r|] eqn:E.
    + split; [|reflexivity]. intros _. exists [], [], r. auto.
    + split; [discriminate|]. intros [pre [suf [rest [H M]]]].
      symmetry in H. apply app_eq_nil in H as [_ ->]. congruence.
  - cbn [re_search]. destruct (match_here re (c :: s)) as [r|] eqn:E.
    + split; [|reflexivity]. intros _. exists [], (c :: s), r. auto.
    + rewrite IH. split.
      * intros [pre [suf [rest [H M]]]]. exists (c :: pre), suf, rest.
        split; [simpl; now rewrite H | exact M].
      * intros [pre [suf [rest [H M]]]]. destruct pre as [|d pre].
        -- simpl in H. subst suf. congruence.
        -- injection H as _ H. eauto.
Qed.

Lemma re_search_loose_eq (line : text) :
  re_search loose_eq_re line = true <-> loose_occurrence line.
Proof.
  rewrite re_search_spec. unfold loose_occurrence. split.
  - intros [pre [suf [rest [-> M]]]].
    apply match_loose_eq_spec in M as [c0 [c3 [-> [H0 H3]]]].
    exists pre, c0, c3, rest. auto.
  - intros [pre [c0 [c3 [post [-> [H0 H3]]]]]].
    exists pre, ([c0; c_eq; c_eq; c3] ++ post), post. split; [reflexivity|].
    apply match_loose_eq_spec. exists c0, c3. auto.
Qed.

Lemma dropwhile_decompose p s :
  exists ws, s = ws ++ dropwhile p s /\ forallb p ws = true.
Proof.
  induction s as [|c s [ws [E F]]]; simpl.
  - exists []. auto.
  - destruct (p c) eqn:Hc.
    + exists (c :: ws). simpl. rewrite Hc, F. split; [now rewrite <- E | reflexivity].
    + exists []. auto.
Qed.

Lemma dropwhile_app_all p ws s :
  forallb p ws = true -> dropwhile p (ws ++ s) = dropwhile p s.
Proof.
  induction ws as [|c ws IH]; simpl; [reflexivity|].
  intros H. apply andb_true_iff in H as [Hc H]. rewrite Hc. auto.
Qed.

Lemma rdrop_cons_keep p a s :
  p a = false -> rdrop p (a :: s) = a :: rdrop p s.
Proof.
  intros Ha. induction s as [|c s IH] using rev_ind.
  - change [a] with ([] ++ [a]). now rewrite rdrop_snoc, Ha.
  - rewrite app_comm_cons, !rdrop_snoc, IH. now destruct (p c).
Qed.

Lemma is_comment_line_spec (line : text) :
  is_comment_line line = true <-> comment_line line.
Proof.
  unfold is_comment_line, comment_line, strip, lstrip. rewrite rstrip_rdrop.
  rewrite startswith_spec. split.
  - intros [post E].
    destruct (dropwhile_decompose isspace line) as [ws [L F]].
    destruct (rdrop_decompose isspace (dropwhile isspace line)) as [t [R _]].
    exists ws, (post ++ t). split; [|exact F].
    rewrite L at 1. f_equal. rewrite R at 1. rewrite E.
    now rewrite <- app_assoc.
  - intros [ws [rest [-> F]]]. rewrite dropwhile_app_all by exact F.
    change (str "//" ++ rest) with (c_slash :: c_slash :: rest).
    cbn [dropwhile]. replace (isspace c_slash) with false by reflexivity.
    rewrite !rdrop_cons_keep by reflexivity.
    exists (rdrop isspace rest). reflexivity.
Qed.

Lemma loose_occurrence_eqeq (line : text) :
  loose_occurrence line <->
  exists pre post, eqeq_at line pre post /\ pre <> [] /\ post <> [].
Proof.
  unfold loose_occurrence, eqeq_at. split.
  - intros [pre [c0 [c3 [post [-> [H0 H3]]]]]].
    exists (pre ++ [c0]), (c3 :: post). repeat split.
    + now rewrite <- app_assoc.
    + intros pre' c E. apply app_inj_tail in E as [_ <-]. exact H0.
    + intros c post' [= <- _]. exact H3.
    + destruct pre; discriminate.
    + discriminate.
  - intros [pre [post [[-> [Hp Hq]] [Npre Npost]]]].
    destruct pre as [|c0 pre _] using rev_ind; [contradiction|].
    destruct post as [|c3 post]; [contradiction|].
    exists pre, c0, c3, post. repeat split.
    + now rewrite <- app_assoc.
    + now apply (Hp pre c0).
    + now apply (Hq c3 post).
Qed.

Lemma rule_loose_eq_spec (line : text) :
  rule_loose_eq line = true <-> ~ comment_line line /\ loose_occurrence line.
Proof.
  unfold rule_loose_eq.
  rewrite andb_true_iff, negb_true_iff, re_search_loose_eq.
  rewrite <- is_comment_line_spec. split; intros [A B]; split; auto.
  - now rewrite A.
  - now apply not_true_is_false.
Qed.

(** C2 as claimed fails: the line [==b] is no comment and holds a [==]
    with nothing before it and [b] after it, yet no issue is reported. *)
Lemma loose_eq_claim_counterexample :
  ~ comment_line (str "==b" ++ [LF])
  /\ claimed_loose_occurrence (str "==b" ++ [LF])
  /\ ~ In (msg_loose_eq 1) (scan [str "==b" ++ [LF]]).
Proof.
  split; [|split].
  - rewrite <- is_comment_line_spec. vm_compute. discriminate.
  - exists [], (str "b" ++ [LF]). split; [reflexivity|]. split.
    + intros pre' c E. destruct pre'; discriminate.
    + intros c post' [= <- _]. discriminate.
  - replace (scan [str "==b" ++ [LF]]) with (@nil text) by (vm_compute; reflexivity).
    intros [].
Qed.

(** C2, amended: a line that begins, after leading whitespace, with [//]
    gets no loose-equality issue; any other line gets one exactly when it
    holds two consecutive [=] that have a character before them, none of
    [= ! < >], and a character after them, not [=].  A line that is no
    comment and contains [a == b] gets the issue; the lines [a === b],
    [a <= b], [a >= b] and [a != b] get none. *)
Theorem loose_eq_rule_amended (lines : list text) (n : nat) (line : text) :
  nth_error lines n = Some line ->
  (comment_line line -> ~ In (msg_loose_eq (Z.of_nat n + 1)) (scan lines))
  /\ (~ comment_line line ->
      (In (msg_loose_eq (Z.of_nat n + 1)) (scan lines) <->
       exists pre post, eqeq_at line pre post /\ pre <> [] /\ post <> []))
  /\ (~ comment_line line -> substring (str "a == b") line ->
      In (msg_loose_eq (Z.of_nat n + 1)) (scan lines))
  /\ (forall t nl,
        In t [str "a === b"; str "a <= b"; str "a >= b"; str "a != b"] ->
        nl = [] \/ nl = [LF] -> line = t ++ nl ->
        ~ In (msg_loose_eq (Z.of_nat n + 1)) (scan lines)).
Proof.
  intros H.
  change (msg_loose_eq (Z.of_nat n + 1)) with (msg LooseEq (Z.of_nat n + 1)).
  rewrite (In_scan_iff LooseEq _ _ H). cbn [fires].
  rewrite rule_loose_eq_spec, loose_occurrence_eqeq.
  split; [|split; [|split]].
  - intros C [NC _]. contradiction.
  - intros NC. split; [intros [_ O]; exact O | intros O; auto].
  - intros NC [pre [post ->]]. split; [exact NC|].
    rewrite <- loose_occurrence_eqeq.
    exists (pre ++ [97%N]), SP, SP, ([98%N] ++ post). split.
    + rewrite <- !app_assoc. reflexivity.
    + split; [|discriminate]. unfold operator_lead, SP, c_eq, c_bang, c_lt, c_gt.
      simpl. intros [E|[E|[E|[E|[]]]]]; discriminate.
  - intros t nl Ht Hnl -> O. apply (In_scan_iff LooseEq _ _ H) in O.
    cbn [fires] in O. simpl in Ht.
    destruct Ht as [<-|[<-|[<-|[<-|[]]]]]; destruct Hnl as [-> | ->];
      vm_compute in O; discriminate.
Qed.

Lemma loose_eq_rule_amended_witness :
  In (msg_loose_eq 2) (scan [str "// a == b" ++ [LF]; str "if (a == b) {}" ++ [LF]])
  /\ ~ In (msg_loose_eq 1)
         (scan [str "// a == b" ++ [LF]; str "if (a == b) {}" ++ [LF]]).
Proof.
  split.
  - apply (proj1 (proj2 (proj2 (loose_eq_rule_amended
             [str "// a == b" ++ [LF]; str "if (a == b) {}" ++ [LF]] 1 eq_refl)))).
    + rewrite <- is_comment_line_spec. vm_compute. discriminate.
    + exists (str "if ("), (str ") {}" ++ [LF]). reflexivity.
  - apply (proj1 (loose_eq_rule_amended
             [str "// a == b" ++ [LF]; str "if (a == b) {}" ++ [LF]] 0 eq_refl)).
    exists [], (str " a == b" ++ [LF]). split; reflexivity.
Defined.

Lemma nth_error_mid (A : Type) (pre : list A) (x : A) (post : list A) :
  nth_error (pre ++ x :: post) (List.length pre) = Some x.
Proof.
  rewrite nth_error_app2 by lia. now rewrite Nat.sub_diag.
Qed.

(** C9: every match of the loose-equality pattern covers one character
    before the [==] and one after it; the rule reports a line only through
    such a match; hence a line whose every [==] starts at the first
    character of the line or ends at its last character is not reported. *)
Theorem loose_eq_needs_neighbours (line : text) :
  (forall j, loose_match_at line j = true ->
     nth_error line (j + 1) = Some c_eq /\ nth_error line (j + 2) = Some c_eq
     /\ (exists c0, nth_error line j = Some c0)
     /\ (exists c3, nth_error line (j + 3) = Some c3))
  /\ (rule_loose_eq line = true -> exists j, loose_match_at line j = true)
  /\ ((forall k, nth_error line k = Some c_eq ->
                 nth_error line (S k) = Some c_eq ->
                 k = 0%nat \/ S (S k) = List.length line) ->
      rule_loose_eq line = false).
Proof.
  split; [|split].
  - intros j M. unfold loose_match_at in M.
    destruct (match_here loose_eq_re (skipn j line)) as [rest|] eqn:E;
      [|discriminate].
    apply match_loose_eq_spec in E as [c0 [c3 [E _]]].
    assert (N : forall i, nth_error line (j + i)
                          = nth_error (c0 :: c_eq :: c_eq :: c3 :: rest) i).
    { intros i. now rewrite <- nth_error_skipn, E. }
    repeat split.
    + now rewrite N.
    + now rewrite N.
    + exists c0. rewrite <- (Nat.add_0_r j). now rewrite N.
    + exists c3. now rewrite N.
  - intros R. unfold rule_loose_eq in R. apply andb_true_iff in R as [_ R].
    apply re_search_spec in R as [pre [suf [rest [-> M]]]].
    exists (List.length pre). unfold loose_match_at.
    rewrite skipn_app, Nat.sub_diag, skipn_all. cbn [skipn app].
    now rewrite M.
  - intros Hk. apply not_true_is_false. intros R.
    apply rule_loose_eq_spec in R as [_ [pre [c0 [c3 [post [E _]]]]]].
    assert (E' : line = (pre ++ [c0]) ++ c_eq :: c_eq :: c3 :: post)
      by (rewrite E, <- app_assoc; reflexivity).
    assert (E'' : line = (pre ++ [c0; c_eq]) ++ c_eq :: c3 :: post)
      by (rewrite E, <- app_assoc; reflexivity).
    specialize (Hk (List.length (pre ++ [c0]))).
    rewrite E' in Hk at 1. rewrite nth_error_mid in Hk.
    replace (S (List.length (pre ++ [c0]))) with (List.length (pre ++ [c0; c_eq])) in Hk
      by (rewrite !length_app; simpl; lia).
    rewrite E'' in Hk at 1. rewrite nth_error_mid in Hk.
    specialize (Hk eq_refl eq_refl).
    rewrite E, !length_app in Hk. simpl in Hk. lia.
Qed.

Lemma loose_eq_needs_neighbours_witness :
  rule_loose_eq (str "== b") = false /\ rule_loose_eq (str "a ==") = false.
Proof.
  split.
  - apply (proj2 (proj2 (loose_eq_needs_neighbours (str "== b")))).
    intros [|[|[|[|k]]]] H1 H2; try discriminate; auto.
  - apply (proj2 (proj2 (loose_eq_needs_neighbours (str "a ==")))).
    intros [|[|[|[|k]]]] H1 H2; try discriminate; auto.
Defined.

(** ** Lines as [readlines] delivers them *)

Lemma universal_newlines_no_CR_aux (n : nat) : forall s,
  (List.length s <= n)%nat -> ~ In CR (universal_newlines s).
Proof.
  induction n as [|n IH]; intros s L.
  - destruct s; [intros [] | simpl in L; lia].
  - destruct s as [|c s]; [intros []|]. simpl in L.
    cbn [universal_newlines]. destruct (char_eqb c CR) eqn:Hc.
    + intros [E | HI]; [discriminate|].
      destruct s as [|d s]; [destruct HI|]. simpl in L.
      destruct (char_eqb d LF); revert HI; apply IH; simpl; lia.
    + intros [E | HI].
      * subst c. now rewrite char_eqb_refl in Hc.
      * revert HI. apply IH. lia.
Qed.

Lemma universal_newlines_no_CR (s : text) : ~ In CR (universal_newlines s).
Proof. now apply (@universal_newlines_no_CR_aux (List.length s)). Qed.

Lemma split_keepends_concat (s : text) : List.concat (split_keepends s) = s.
Proof.
  induction s as [|c s IH]; [reflexivity|]. cbn [split_keepends].
  destruct (char_eqb c LF) eqn:Hc.
  - apply char_eqb_eq in Hc. subst c. simpl. now rewrite IH.
  - destruct (split_keepends s) as [|l ls]; simpl in *.
    + now subst s.
    + now rewrite IH.
Qed.

Lemma readlines_concat (content : text) :
  List.concat (readlines content) = universal_newlines content.
Proof. apply split_keepends_concat. Qed.

Lemma readlines_no_CR (content line : text) :
  In line (readlines content) -> ~ In CR line.
Proof.
  intros HI HC. apply (universal_newlines_no_CR content).
  rewrite <- readlines_concat. apply in_concat. eauto.
Qed.

Lemma line_shape_cons c l : c <> LF -> line_shape l -> line_shape (c :: l).
Proof.
  intros Hc [body [Hb [-> | [-> Hn]]]]; exists (c :: body); split.
  - intros [E | HI]; contradiction.
  - now left.
  - intros [E | HI]; contradiction.
  - right. split; [reflexivity | discriminate].
Qed.

Lemma split_keepends_shape (s l : text) :
  In l (split_keepends s) -> line_shape l.
Proof.
  revert l. induction s as [|c s IH]; intros l HI; [destruct HI|].
  cbn [split_keepends] in HI. destruct (char_eqb c LF) eqn:Hc.
  - destruct HI as [<- | HI]; [|auto].
    exists []. split; [intros [] | now left].
  - apply char_eqb_neq in Hc.
    destruct (split_keepends s) as [|l0 ls].
    + destruct HI as [<- | []]. exists [c]. split.
      * intros [E | []]. contradiction.
      * right. split; [reflexivity | discriminate].
    + destruct HI as [<- | HI].
      * apply line_shape_cons; [exact Hc | apply IH; now left].
      * apply IH. now right.
Qed.

Lemma readlines_shape (content l : text) :
  In l (readlines content) -> line_shape l.
Proof. apply split_keepends_shape. Qed.

Lemma universal_newlines_crlf (b rest : text) :
  ~ In CR b ->
  universal_newlines (b ++ CR :: LF :: rest) = b ++ LF :: universal_newlines rest.
Proof.
  induction b as [|c b IH]; intros Hb.
  - reflexivity.
  - cbn [app universal_newlines]. destruct (char_eqb c CR) eqn:Hc.
    + apply char_eqb_eq in Hc. subst c. exfalso. apply Hb. now left.
    + rewrite IH; [reflexivity|]. intros HI. apply Hb. now right.
Qed.

Lemma split_keepends_line (b rest : text) :
  ~ In LF b ->
  split_keepends (b ++ LF :: rest) = (b ++ [LF]) :: split_keepends rest.
Proof.
  induction b as [|c b IH]; intros Hb.
  - reflexivity.
  - cbn [app split_keepends]. destruct (char_eqb c LF) eqn:Hc.
    + apply char_eqb_eq in Hc. subst c. exfalso. apply Hb. now left.
    + rewrite IH; [reflexivity|]. intros HI. apply Hb. now right.
Qed.

Lemma readlines_crlf (bodies : list text) :
  (forall b, In b bodies -> ~ In CR b /\ ~ In LF b) ->
  readlines (crlf_file bodies) = map (fun b => b ++ [LF]) bodies.
Proof.
  unfold readlines, crlf_file. induction bodies as [|b bodies IH]; intros H.
  - reflexivity.
  - destruct (H b (or_introl eq_refl)) as [H1 H2].
    cbn [map List.concat]. rewrite <- app_assoc. cbn [app].
    rewrite universal_newlines_crlf by exact H1.
    rewrite split_keepends_line by exact H2.
    rewrite IH; [reflexivity|]. intros b' Hb'. apply H. now right.
Qed.

(** ** Trailing whitespace other than spaces and tabs *)

Lemma rule_trailing_any_space body c nl :
  isspace c = true -> c <> LF -> nl = [] \/ nl = [LF] ->
  rule_trailing (body ++ [c] ++ nl) = true.
Proof.
  intros Hs Hc Hnl. apply rule_trailing_ends_with.
  rewrite rstrip_LF_rdrop, app_assoc.
  rewrite rdrop_app_all by (destruct Hnl as [-> | ->]; reflexivity).
  rewrite rdrop_snoc.
  replace (is_LF c) with false.
  - apply ends_with_snoc. exact Hs.
  - symmetry. apply not_true_is_false. now rewrite is_LF_spec.
Qed.

Lemma rule_trailing_LF body : rule_trailing (body ++ [LF]) = rule_trailing body.
Proof.
  unfold rule_trailing.
  rewrite (rstrip_rdrop (body ++ [LF])), (rstrip_LF_rdrop (body ++ [LF])).
  rewrite !rdrop_snoc. reflexivity.
Qed.

(** C10 as claimed fails: the only line of the file [a CR LF] ends with a
    carriage return before its newline and has no trailing space or tab,
    and the scan reports nothing. *)
Lemma crlf_claim_counterexample :
  split_keepends (str "a" ++ [CR; LF]) = [str "a" ++ [CR; LF]]
  /\ readlines (str "a" ++ [CR; LF]) = [str "a" ++ [LF]]
  /\ scan (readlines (str "a" ++ [CR; LF])) = [].
Proof. repeat split. Qed.

(** C10, amended: the trailing-whitespace test fires on a text whose last
    character before the optional newline is any whitespace character
    (carriage return, form feed, ... as well as space and tab); but a line
    read from the file never holds a carriage return, because text mode
    turns CR LF into LF, so in a file with CR LF line endings a line gets
    the issue only when its text before CR LF ends with whitespace. *)
Theorem trailing_rule_any_whitespace :
  (forall body c nl, isspace c = true -> c <> LF -> nl = [] \/ nl = [LF] ->
     rule_trailing (body ++ [c] ++ nl) = true)
  /\ (forall body, rule_trailing (body ++ [CR; LF]) = true)
  /\ (forall content line, In line (readlines content) -> ~ In CR line)
  /\ (forall bodies n body,
        (forall b, In b bodies -> ~ In CR b /\ ~ In LF b) ->
        nth_error bodies n = Some body ->
        (ends_with isspace body ->
         occurrences (msg_trailing (Z.of_nat n + 1))
                     (scan (readlines (crlf_file bodies))) = 1%nat)
        /\ (~ ends_with isspace body ->
            occurrences (msg_trailing (Z.of_nat n + 1))
                        (scan (readlines (crlf_file bodies))) = 0%nat)).
Proof.
  split; [|split; [|split]].
  - apply rule_trailing_any_space.
  - intros body. apply (rule_trailing_any_space body (c := CR) (nl := [LF]));
      [reflexivity | discriminate | now right].
  - apply readlines_no_CR.
  - intros bodies n body Hb Hn. rewrite (readlines_crlf _ Hb).
    assert (Hl : nth_error (map (fun b => b ++ [LF]) bodies) n = Some (body ++ [LF])).
    { rewrite nth_error_map, Hn. reflexivity. }
    change (msg_trailing (Z.of_nat n + 1)) with (msg Trailing (Z.of_nat n + 1)).
    rewrite (occurrences_scan Trailing _ _ Hl). cbn [fires].
    rewrite rule_trailing_LF.
    assert (F : rdrop is_LF body = body).
    { apply rdrop_fixed. intros [s [c [E Hc]]]. apply is_LF_spec in Hc.
      subst c. apply (proj2 (Hb body (nth_error_In _ _ Hn))).
      rewrite E. apply in_or_app. right. now left. }
    pose proof (rule_trailing_ends_with body) as R.
    rewrite rstrip_LF_rdrop, F in R. split; intros E.
    + apply R in E. now rewrite E.
    + destruct (rule_trailing body); [|reflexivity].
      exfalso. apply E. now apply R.
Qed.

Lemma trailing_rule_any_whitespace_witness :
  rule_trailing (str "x;" ++ [12%N] ++ [LF]) = true
  /\ occurrences (msg_trailing 1) (scan (readlines (crlf_file [str "x;"; str "y; "])))
     = 0%nat
  /\ occurrences (msg_trailing 2) (scan (readlines (crlf_file [str "x;"; str "y; "])))
     = 1%nat.
Proof.
  split; [|split].
  - apply (proj1 trailing_rule_any_whitespace (str "x;") 12%N [LF]);
      [reflexivity | discriminate | now right].
  - apply (proj2 (proj2 (proj2 trailing_rule_any_whitespace))
             [str "x;"; str "y; "] 0%nat (str "x;")); [|reflexivity|].
    + intros b [<- | [<- | []]]; split; vm_compute;
        intuition discriminate.
    + change (str "x;") with ([120%N] ++ [59%N]). rewrite ends_with_snoc.
      vm_compute. discriminate.
  - apply (proj2 (proj2 (proj2 trailing_rule_any_whitespace))
             [str "x;"; str "y; "] 1%nat (str "y; ")); [|reflexivity|].
    + intros b [<- | [<- | []]]; split; vm_compute;
        intuition discriminate.
    + exists (str "y;"), SP. split; reflexivity.
Defined.

(** ** The process *)

Lemma world_eta w :
  mkWorld (files w) (open_handles w) (stdout w) (dev w) (buffer w) = w.
Proof. now destruct w. Qed.

Lemma write_nil w : write [] w = w.
Proof. unfold write. rewrite app_nil_r. apply world_eta. Qed.

Lemma write_write a b w : write b (write a w) = write (a ++ b) w.
Proof. unfold write. simpl. now rewrite app_assoc. Qed.

Lemma check_javascript_readable w filename content :
  files w filename = Readable content ->
  check_javascript filename w = (Val (scan (readlines content)), w).
Proof.
  intros H. unfold check_javascript, bind, py_open, finally, py_readlines, ret.
  rewrite H. unfold py_close.
  cbn [files open_handles stdout dev buffer Nat.pred].
  now rewrite world_eta.
Qed.

Lemma check_javascript_cannot_open w filename e :
  files w filename = CannotOpen e ->
  check_javascript filename w = (Raise (IOError e), w).
Proof.
  intros H. unfold check_javascript, bind, py_open. now rewrite H.
Qed.

Lemma check_javascript_cannot_read w filename e :
  files w filename = CannotRead e ->
  check_javascript filename w = (Raise (IOError e), w).
Proof.
  intros H. unfold check_javascript, bind, py_open, finally, py_readlines.
  rewrite H. unfold py_close.
  cbn [files open_handles stdout dev buffer Nat.pred].
  now rewrite world_eta.
Qed.

(** The monad laws used below, at a given world. *)
Lemma bind_assoc (A B C : Type) (m : M A) (k : A -> M B) (h : B -> M C) w :
  bind (bind m k) h w = bind m (fun a => bind (k a) h) w.
Proof. unfold bind. destruct (m w) as [[a|e] w']; reflexivity. Qed.

Lemma bind_ext (A B : Type) (m : M A) (k k' : A -> M B) w :
  (forall a w', k a w' = k' a w') -> bind m k w = bind m k' w.
Proof. intros H. unfold bind. destruct (m w) as [[a|e] w']; auto. Qed.

Lemma for_each_then (B : Type) (f : text -> M unit) (k : M B)
      (xs ys : list text) : forall w,
  (for_each (xs ++ ys) f ;; k) w = (for_each xs f ;; for_each ys f ;; k) w.
Proof.
  induction xs as [|x xs IH]; intros w.
  - reflexivity.
  - cbn [app for_each]. rewrite !bind_assoc. apply bind_ext.
    intros _ w'. apply IH.
Qed.

Lemma for_each_map_then (B : Type) (g : text -> text) (f : text -> M unit)
      (k : M B) (xs : list text) : forall w,
  (for_each (map g xs) f ;; k) w = (for_each xs (fun x => f (g x)) ;; k) w.
Proof.
  induction xs as [|x xs IH]; intros w.
  - reflexivity.
  - cbn [map for_each]. rewrite !bind_assoc. apply bind_ext.
    intros _ w'. apply IH.
Qed.

(** The reporter prints the lines of [report] in turn and exits. *)
Lemma report_exec (issues : list text) (w : world) :
  (match issues with
   | _ :: _ =>
       print (header (len issues)) ;;
       for_each (firstn 20 issues) (fun issue => print (indent issue)) ;;
       (if (len issues >? 20)%Z then print (more (len issues - 20)) else ret tt) ;;
       sys_exit 1
   | [] => print (str "No major issues found!") ;; sys_exit 0
   end : M unit) w
  = (for_each (report issues) print ;; sys_exit (status_of issues)) w.
Proof.
  destruct issues as [|i issues].
  - cbn [report status_of for_each]. rewrite bind_assoc. reflexivity.
  - unfold report. cbn [status_of].
    rewrite (for_each_then print (sys_exit 1) [header (len (i :: issues))]).
    cbn [for_each]. rewrite bind_assoc. apply bind_ext. intros _ w1.
    change ((ret tt ;; for_each
               (map indent (firstn 20 (i :: issues))
                ++ (if (20 <? len (i :: issues))%Z
                    then [more (len (i :: issues) - 20)] else []))
               print ;; sys_exit 1) w1)
      with ((for_each
               (map indent (firstn 20 (i :: issues))
                ++ (if (20 <? len (i :: issues))%Z
                    then [more (len (i :: issues) - 20)] else []))
               print ;; (sys_exit 1 : M unit)) w1).
    rewrite for_each_then, for_each_map_then. apply bind_ext. intros _ w2.
    rewrite Z.gtb_ltb. destruct (20 <? len (i :: issues))%Z.
    + cbn [for_each]. rewrite bind_assoc. reflexivity.
    + reflexivity.
Qed.

(** What a sequence of prints does, for each kind of standard output. *)
Lemma for_each_print_spec (ls : list text) : forall w,
  for_each ls print w
  = match dev w with
    | Absent => (Val tt, w)
    | Direct None => (Val tt, write (unlines ls) w)
    | Direct (Some room) =>
        if (List.length ls <=? room)%nat
        then (Val tt, set_dev (Direct (Some (room - List.length ls)))
                              (write (unlines ls) w))
        else (Raise (IOError OtherOSError),
              set_dev (Direct (Some 0)) (write (unlines (firstn room ls)) w))
    | Buffered _ => (Val tt, enqueue (unlines ls) w)
    end.
Proof.
  induction ls as [|x ls IH]; intros [f h o d b].
  - cbn [for_each dev List.length unlines flat_map firstn]. unfold ret.
    destruct d as [|[room|]|ok]; unfold write, enqueue, set_dev;
      cbn [files open_handles stdout dev buffer Nat.leb];
      rewrite ?app_nil_r, ?Nat.sub_0_r; reflexivity.
  - cbn [for_each]. unfold bind, print at 1. cbn [dev].
    destruct d as [|[[|room]|]|ok].
    + rewrite IH. reflexivity.
    + cbn [List.length Nat.leb firstn unlines flat_map].
      unfold write, set_dev. cbn [files open_handles stdout dev buffer].
      now rewrite app_nil_r.
    + rewrite IH. unfold write, set_dev.
      cbn [files open_handles stdout dev buffer List.length Nat.leb Nat.sub
           firstn unlines flat_map].
      destruct (List.length ls <=? room)%nat; now rewrite <- !app_assoc.
    + rewrite IH. unfold write.
      cbn [files open_handles stdout dev buffer unlines flat_map].
      now rewrite <- !app_assoc.
    + rewrite IH. unfold enqueue.
      cbn [files open_handles stdout dev buffer unlines flat_map].
      now rewrite <- !app_assoc.
Qed.

(** A process that prints [ls], calls [sys.exit(code)] and is then shut
    down by the interpreter: status, text on the device, files. *)
Lemma prints_exit_flush (ls : list text) (code : Z) (d : device) (w : world) :
  let r := (for_each ls print ;; sys_exit code : M unit) (start d w) in
  let fl := flush_stdout (snd r) in
  exit_status (fst r) (fst fl) = status_after d ls code
  /\ stdout (snd fl) = stdout w ++ unlines (delivered d ls)
  /\ files (snd fl) = files w.
Proof.
  destruct w as [f h o d0 b0]. cbv zeta. unfold bind.
  rewrite for_each_print_spec. unfold start. cbn [dev files open_handles stdout buffer].
  destruct d as [|[room|]|[|]]; cbn [delivered status_after].
  - cbn. now rewrite app_nil_r.
  - destruct (List.length ls <=? room)%nat eqn:L.
    + cbn. apply Nat.leb_le in L. now rewrite firstn_all2 by exact L.
    + cbn. auto.
  - cbn. auto.
  - cbn. auto.
  - unfold sys_exit, enqueue, flush_stdout.
    cbn [fst snd dev buffer files open_handles stdout app].
    destruct ls as [|l ls].
    + cbn. now rewrite app_nil_r.
    + assert (N : exists c t, unlines (l :: ls) = c :: t).
      { cbn [unlines flat_map]. destruct l as [|c l]; cbn [app]; eauto. }
      destruct N as [c [t ->]]. cbn. now rewrite app_nil_r.
Qed.

Lemma files_start d w : files (start d w) = files w.
Proof. reflexivity. Qed.

Lemma main_readable d w content :
  files w script = Readable content ->
  main (start d w)
  = (for_each (report (scan (readlines content))) print ;;
     sys_exit (status_of (scan (readlines content)))) (start d w).
Proof.
  intros H. unfold main. unfold bind at 1. fold script.
  rewrite (@check_javascript_readable (start d w) script content H).
  apply (report_exec (scan (readlines content)) (start d w)).
Qed.

Lemma main_unreadable w e :
  files w script = CannotOpen e \/ files w script = CannotRead e ->
  main w = (Raise (IOError e), w).
Proof.
  intros H. unfold main. unfold bind at 1. fold script.
  destruct H as [H|H].
  - now rewrite (check_javascript_cannot_open _ _ H).
  - now rewrite (check_javascript_cannot_read _ _ H).
Qed.

Lemma run_readable d w content :
  files w script = Readable content ->
  fst (run d w)
  = status_after d (report (scan (readlines content)))
                 (status_of (scan (readlines content)))
  /\ stdout (snd (run d w))
     = stdout w ++ unlines (delivered d (report (scan (readlines content))))
  /\ files (snd (run d w)) = files w.
Proof.
  intros H.
  pose proof (prints_exit_flush (report (scan (readlines content)))
                (status_of (scan (readlines content))) d w) as P.
  cbv zeta in P. unfold run. rewrite (main_readable d _ H).
  destruct ((for_each (report (scan (readlines content))) print ;;
             sys_exit (status_of (scan (readlines content)))) (start d w))
    as [r w1].
  cbn [fst snd] in P. destruct (flush_stdout w1) as [fl w2]. exact P.
Qed.

Lemma run_unreadable d w e :
  files w script = CannotOpen e \/ files w script = CannotRead e ->
  fst (run d w) = 1%Z
  /\ stdout (snd (run d w)) = stdout w
  /\ files (snd (run d w)) = files w.
Proof.
  intros H. unfold run.
  rewrite (@main_unreadable (start d w) e H).
  destruct w as [f h o d0 b0]. unfold start, flush_stdout.
  cbn [dev buffer files open_handles stdout].
  destruct d as [|room|[|]]; cbn; rewrite ?app_nil_r; auto.
Qed.

Lemma output_readable d w content :
  files w script = Readable content ->
  output d w = unlines (delivered d (report (scan (readlines content)))).
Proof.
  intros H. unfold output.
  rewrite (proj1 (proj2 (run_readable d _ H))).
  rewrite skipn_app, Nat.sub_diag, skipn_all. reflexivity.
Qed.

Lemma output_unreadable d w e :
  files w script = CannotOpen e \/ files w script = CannotRead e ->
  output d w = [].
Proof.
  intros H. unfold output.
  rewrite (proj1 (proj2 (run_unreadable d w H))). apply skipn_all.
Qed.

Lemma delivered_reliable d ls : reliable d = true -> delivered d ls = ls.
Proof. destruct d as [|[room|]|[|]]; try discriminate; reflexivity. Qed.

Lemma status_after_reliable d ls code :
  reliable d = true -> status_after d ls code = code.
Proof. destruct d as [|[room|]|[|]]; try discriminate; reflexivity. Qed.


(** ** Issues are single lines of text *)

Lemma string_of_uint_no_LF (d : Decimal.uint) :
  ~ In LF (str (NilEmpty.string_of_uint d)).
Proof.
  induction d; cbn [NilEmpty.string_of_uint]; [intros [] | ..];
    (intros [E | HI]; [discriminate E | contradiction]).
Qed.

Lemma fmt_int_no_LF (z : Z) : ~ In LF (fmt_int z).
Proof.
  unfold fmt_int. destruct (Z.to_int z) as [d|d]; cbn [NilEmpty.string_of_int].
  - apply string_of_uint_no_LF.
  - intros [E | HI]; [discriminate E|]. revert HI. apply string_of_uint_no_LF.
Qed.

Lemma msg_no_LF r i : ~ In LF (msg r i).
Proof.
  intros H. destruct r; cbn [msg] in H;
    unfold msg_console, msg_loose_eq, msg_trailing in H;
    apply in_app_or in H as [H | H];
    try (no_LF_literal H);
    apply in_app_or in H as [H | H];
    try (now apply fmt_int_no_LF in H); no_LF_literal H.
Qed.

Lemma msg_braces_no_LF n : ~ In LF (msg_braces n).
Proof.
  unfold msg_braces. intros H.
  apply in_app_or in H as [H | H]; [no_LF_literal H|].
  apply in_app_or in H as [H | H]; [now apply fmt_int_no_LF in H|].
  apply in_app_or in H as [H | H]; [no_LF_literal H|].
  apply in_app_or in H as [H | H]; [|no_LF_literal H].
  destruct (n >? 0)%Z; no_LF_literal H.
Qed.

Lemma In_issues_from m lines : forall start,
  In m (issues_from start lines) -> exists r i, m = msg r i.
Proof.
  induction lines as [|l lines IH]; intros start H; [destruct H|].
  cbn [issues_from] in H. apply in_app_or in H as [H | H]; [|eauto].
  rewrite issues_of_line_fires in H.
  repeat (apply in_app_or in H as [H | H]);
    match type of H with
    | In _ (if ?b then _ else _) => destruct b
    end; try destruct H as [<- | []]; try destruct H; eauto.
Qed.

Lemma In_scan m lines :
  In m (scan lines) ->
  (exists r i, m = msg r i) \/ m = msg_braces (brace_balance lines).
Proof.
  unfold scan. rewrite line_issues_eq.
  destruct (negb (brace_balance lines =? 0)%Z); intros H.
  - apply in_app_or in H as [H | [<- | []]].
    + left. now apply In_issues_from in H.
    + now right.
  - left. now apply In_issues_from in H.
Qed.

Lemma scan_no_LF m lines : In m (scan lines) -> ~ In LF m.
Proof.
  intros H. apply In_scan in H as [[r [i ->]] | ->].
  - apply msg_no_LF.
  - apply msg_braces_no_LF.
Qed.

(** ** Exit status *)




(** ** Report *)

Lemma len_firstn_20 (issues : list text) :
  (20 <= len issues)%Z -> List.length (firstn 20 issues) = 20%nat.
Proof.
  unfold len. intros H. rewrite length_firstn. lia.
Qed.

(** C4 as claimed fails: the file [x = 1;] is readable and has no issue,
    but when the flush of standard output at exit fails nothing is
    printed and the status is 120. *)
Lemma report_claim_counterexample :
  scan (readlines (str "x = 1;" ++ [LF])) = []
  /\ output (Buffered false)
            (mkWorld (fun _ => Readable (str "x = 1;" ++ [LF])) 0 [] Absent [])
     = []
  /\ fst (run (Buffered false)
              (mkWorld (fun _ => Readable (str "x = 1;" ++ [LF])) 0 [] Absent []))
     = 120%Z.
Proof. repeat split; vm_compute; reflexivity. Qed.

(** C4, amended: on a readable file and with a standard output that
    takes everything that is printed, a run with no issue prints the one line
    [No major issues found!] and exits with 0; a run with issues prints
    [Found N issues:], then the first 20 issues at most, in order, one per
    line (indented by two spaces; no issue contains a newline), then, only
    when there are more than 20, the line [... and M more issues] (same
    indentation) with M the count minus 20, and exits with 1.  With 25
    per-line issues and balanced braces: [Found 25 issues:], 20 issue
    lines, [... and 5 more issues], status 1. *)
Theorem report_and_status (d : device) (w : world) (content : text) :
  reliable d = true ->
  files w script = Readable content ->
  let issues := scan (readlines content) in
  (issues = [] ->
     output d w = str "No major issues found!" ++ [LF] /\ fst (run d w) = 0%Z)
  /\ (issues <> [] ->
      output d w
      = unlines ([str "Found " ++ fmt_int (len issues) ++ str " issues:"]
                 ++ map (fun issue => str "  " ++ issue) (firstn 20 issues)
                 ++ (if (20 <? len issues)%Z
                     then [str "  ... and " ++ fmt_int (len issues - 20)
                           ++ str " more issues"]
                     else []))
      /\ fst (run d w) = 1%Z)
  /\ (forall issue, In issue issues -> ~ In LF issue)
  /\ (List.length (line_issues (readlines content)) = 25%nat ->
      brace_balance (readlines content) = 0%Z ->
      output d w
      = unlines ([str "Found 25 issues:"]
                 ++ map (fun issue => str "  " ++ issue)
                        (firstn 20 (line_issues (readlines content)))
                 ++ [str "  ... and 5 more issues"])
      /\ List.length (firstn 20 (line_issues (readlines content))) = 20%nat
      /\ fst (run d w) = 1%Z).
Proof.
  intros R F issues.
  rewrite (output_readable d _ F), (proj1 (run_readable d _ F)).
  rewrite (@delivered_reliable d _ R), (@status_after_reliable d _ _ R).
  fold issues. split; [|split; [|split]].
  - intros E. rewrite E. split; reflexivity.
  - intros NE. destruct issues as [|i rest] eqn:E; [contradiction|].
    split; reflexivity.
  - intros issue HI. now apply scan_no_LF in HI.
  - intros L B. assert (E : issues = line_issues (readlines content)).
    { unfold issues, scan. now rewrite B. }
    rewrite E. split; [|split].
    + destruct (line_issues (readlines content)) as [|i rest] eqn:El;
        [discriminate L|].
      unfold report. unfold len. rewrite L. reflexivity.
    + apply len_firstn_20. unfold len. lia.
    + destruct (line_issues (readlines content)); [discriminate L | reflexivity].
Qed.

Lemma report_and_status_witness :
  output (Buffered true) (mkWorld (fun _ => Readable twenty_five_lines) 0 [] Absent [])
  = unlines ([str "Found 25 issues:"]
             ++ map (fun issue => str "  " ++ issue)
                    (firstn 20 (line_issues (readlines twenty_five_lines)))
             ++ [str "  ... and 5 more issues"])
  /\ List.length (firstn 20 (line_issues (readlines twenty_five_lines))) = 20%nat
  /\ fst (run (Buffered true)
              (mkWorld (fun _ => Readable twenty_five_lines) 0 [] Absent []))
     = 1%Z.
Proof.
  apply (proj2 (proj2 (proj2 (@report_and_status (Buffered true)
           (mkWorld (fun _ => Readable twenty_five_lines) 0 [] Absent [])
           twenty_five_lines eq_refl eq_refl)))).
  - vm_compute. reflexivity.
  - vm_compute. reflexivity.
Defined.

(** ** All of the file or nothing *)

Lemma In_msg_braces_iff (lines : list text) :
  In (msg_braces (brace_balance lines)) (scan lines)
  <-> brace_balance lines <> 0%Z.
Proof.
  unfold scan. rewrite line_issues_eq.
  destruct (brace_balance lines =? 0)%Z eqn:B; cbn [negb].
  - apply Z.eqb_eq in B. split; [|intros H; contradiction].
    intros H. exfalso. apply In_issues_from in H as [r [i E]].
    symmetry in E. now apply msg_not_braces in E.
  - apply Z.eqb_neq in B. split; [intros _; exact B|].
    intros _. apply in_or_app. right. now left.
Qed.

(** C7: when the file cannot be opened or cannot be read,
    [check_javascript] raises before any scan, returns no issue list and
    leaves the world as it was; whatever standard output is, the run then
    prints nothing and ends with the uncaught exception.  When the file
    can be read, the result is the scan of all its lines: the lines put
    together are the whole (newline translated) content; each of the three
    rules' verdict on each line is reflected in the issues; and the brace
    balance adds up the braces of the cleaned text of every line, the
    brace issue being reported exactly when that total is not zero.  There
    is no third outcome. *)
Theorem read_all_or_fail (w : world) (filename : text) :
  (forall e,
     files w filename = CannotOpen e \/ files w filename = CannotRead e ->
     check_javascript filename w = (Raise (IOError e), w))
  /\ (forall e d,
        files w script = CannotOpen e \/ files w script = CannotRead e ->
        main w = (Raise (IOError e), w)
        /\ output d w = [] /\ fst (run d w) = 1%Z
        /\ stdout (snd (run d w)) = stdout w)
  /\ (forall content,
        files w filename = Readable content ->
        check_javascript filename w = (Val (scan (readlines content)), w)
        /\ List.concat (readlines content) = universal_newlines content
        /\ (forall r n line,
              nth_error (readlines content) n = Some line ->
              (In (msg r (Z.of_nat n + 1)) (scan (readlines content))
               <-> fires r line = true))
        /\ brace_balance (readlines content)
           = sumZ (map (fun line =>
                          (count_char c_lbrace (clean_line line)
                           - count_char c_rbrace (clean_line line))%Z)
                       (readlines content))
        /\ (In (msg_braces (brace_balance (readlines content)))
               (scan (readlines content))
            <-> brace_balance (readlines content) <> 0%Z))
  /\ ((exists e, check_javascript filename w = (Raise (IOError e), w))
      \/ (exists content, files w filename = Readable content
            /\ check_javascript filename w = (Val (scan (readlines content)), w))).
Proof.
  split; [|split; [|split]].
  - intros e [H|H].
    + now apply check_javascript_cannot_open.
    + now apply check_javascript_cannot_read.
  - intros e d H. split; [|split; [|split]].
    + now apply main_unreadable.
    + now apply (output_unreadable d w H).
    + apply (run_unreadable d w H).
    + apply (run_unreadable d w H).
  - intros content H. split; [|split; [|split; [|split]]].
    + now apply check_javascript_readable.
    + apply readlines_concat.
    + intros r n line Hn. now apply In_scan_iff.
    + apply brace_balance_eq.
    + apply In_msg_braces_iff.
  - destruct (files w filename) as [e|e|content] eqn:F.
    + left. exists e. now apply check_javascript_cannot_open.
    + left. exists e. now apply check_javascript_cannot_read.
    + right. exists content. split; [reflexivity|].
      now apply check_javascript_readable.
Qed.

Lemma read_all_or_fail_witness :
  check_javascript script
    (mkWorld (fun _ => CannotRead UnicodeDecodeError) 0 [] Absent [])
  = (Raise (IOError UnicodeDecodeError),
     mkWorld (fun _ => CannotRead UnicodeDecodeError) 0 [] Absent [])
  /\ output (Direct None)
            (mkWorld (fun _ => CannotRead UnicodeDecodeError) 0 [] Absent []) = []
  /\ brace_balance (readlines (str "f() {" ++ [CR; LF] ++ str "// }"))
     = sumZ (map (fun line =>
                    (count_char c_lbrace (clean_line line)
                     - count_char c_rbrace (clean_line line))%Z)
                 (readlines (str "f() {" ++ [CR; LF] ++ str "// }"))).
Proof.
  split; [|split].
  - apply (proj1 (read_all_or_fail
             (mkWorld (fun _ => CannotRead UnicodeDecodeError) 0 [] Absent [])
             script)).
    right. reflexivity.
  - apply (proj1 (proj2 (read_all_or_fail
             (mkWorld (fun _ => CannotRead UnicodeDecodeError) 0 [] Absent [])
             script)) UnicodeDecodeError (Direct None)).
    right. reflexivity.
  - apply (proj1 (proj2 (proj2 (proj2 (proj1 (proj2 (proj2 (read_all_or_fail
             (mkWorld (fun _ => Readable (str "f() {" ++ [CR; LF] ++ str "// }"))
                      0 [] Absent [])
             script))) (str "f() {" ++ [CR; LF] ++ str "// }") eq_refl))))).
Defined.

(** ** Determinism *)

Lemma run_files (d : device) (w : world) : files (snd (run d w)) = files w.
Proof.
  destruct (files w script) as [e|e|content] eqn:F.
  - apply (run_unreadable d w (or_introl F)).
  - apply (run_unreadable d w (or_intror F)).
  - apply (run_readable d _ F).
Qed.

Lemma run_depends_on_file (d : device) (w1 w2 : world) :
  files w1 script = files w2 script ->
  fst (run d w1) = fst (run d w2) /\ output d w1 = output d w2.
Proof.
  intros E. destruct (files w2 script) as [e|e|content] eqn:F.
  - rewrite (proj1 (run_unreadable d w1 (or_introl E))),
            (proj1 (run_unreadable d w2 (or_introl F))).
    now rewrite (output_unreadable d w1 (or_introl E)),
                (output_unreadable d w2 (or_introl F)).
  - rewrite (proj1 (run_unreadable d w1 (or_intror E))),
            (proj1 (run_unreadable d w2 (or_intror F))).
    now rewrite (output_unreadable d w1 (or_intror E)),
                (output_unreadable d w2 (or_intror F)).
  - rewrite (proj1 (run_readable d _ E)), (proj1 (run_readable d _ F)).
    now rewrite (output_readable d _ E), (output_readable d _ F).
Qed.

(** C8: a run leaves the files as they are, and its exit status and the
    text it prints depend on nothing but what [script.js] holds (and on
    the standard output it is given): a second run, started in the world
    the first one left, prints the same text and exits with the same
    status, and so do two runs started in any two worlds that agree on
    the file. *)
Theorem run_twice_same (d : device) (w : world) :
  files (snd (run d w)) = files w
  /\ fst (run d (snd (run d w))) = fst (run d w)
  /\ output d (snd (run d w)) = output d w
  /\ (forall w', files w' script = files w script ->
        fst (run d w') = fst (run d w) /\ output d w' = output d w).
Proof.
  split; [apply run_files|].
  assert (E : files (snd (run d w)) script = files w script)
    by now rewrite run_files.
  split; [|split].
  - apply (run_depends_on_file d _ _ E).
  - apply (run_depends_on_file d _ _ E).
  - intros w' E'. now apply run_depends_on_file.
Qed.

Lemma run_twice_same_witness :
  fst (run (Direct None)
           (mkWorld (fun _ => Readable (str "a == b ")) 3 (str "earlier output")
                    Absent []))
  = fst (run (Direct None)
             (mkWorld (fun _ => Readable (str "a == b ")) 0 [] Absent []))
  /\ output (Direct None)
            (mkWorld (fun _ => Readable (str "a == b ")) 3 (str "earlier output")
                     Absent [])
     = output (Direct None)
              (mkWorld (fun _ => Readable (str "a == b ")) 0 [] Absent []).
Proof.
  apply (proj2 (proj2 (proj2 (run_twice_same (Direct None)
           (mkWorld (fun _ => Readable (str "a == b ")) 0 [] Absent []))))).
  reflexivity.
Defined.

(** ** Comments, as the second loop removes them *)

Lemma sub_from_skip re repl (a : text) : forall b,
  a <> [] \/ b <> [] ->
  sub_from re repl (List.length a) (a ++ b) = sub_from re repl 0 b.
Proof.
  induction a as [|c a IH]; intros b H.
  - reflexivity.
  - cbn [List.length app sub_from]. destruct a as [|d a].
    + destruct b as [|e b]; reflexivity.
    + apply IH. left. discriminate.
Qed.

Lemma sub_from_skip_all re repl (a : text) :
  match_here re [] = None ->
  sub_from re repl (List.length a) a = [].
Proof.
  intros H. induction a as [|c a IH].
  - cbn [List.length sub_from]. now rewrite H.
  - exact IH.
Qed.

(** *** [//.*$] *)

Lemma greedy_dot_eos (rest nl : text) :
  ~ In LF rest -> is_terminator nl ->
  match_here [Cls dot StarGreedy; Eos] (rest ++ nl) = Some nl.
Proof.
  intros Hr Hnl. induction rest as [|c rest IH].
  - destruct Hnl as [-> | ->]; reflexivity.
  - cbn [match_here app]. cbn [match_here] in IH.
    assert (Hc : dot c = true).
    { unfold dot. apply negb_true_iff, char_eqb_neq. intros ->.
      apply Hr. now left. }
    rewrite Hc. rewrite IH; [reflexivity|]. intros HI. apply Hr. now right.
Qed.

Lemma match_line_comment (s nl : text) :
  ~ In LF s -> is_terminator nl ->
  match_here line_comment_re (s ++ nl)
  = if startswith [c_slash; c_slash] s then Some nl else None.
Proof.
  intros Hs Hnl.
  destruct s as [|c [|d rest]].
  - destruct Hnl as [-> | ->]; reflexivity.
  - cbn [app match_here line_comment_re startswith]. unfold lit.
    destruct (char_eqb c_slash c); [|reflexivity].
    destruct Hnl as [-> | ->]; reflexivity.
  - change (match_here line_comment_re ((c :: d :: rest) ++ nl))
      with (if lit c_slash c
            then if lit c_slash d
                 then match_here [Cls dot StarGreedy; Eos] (rest ++ nl)
                 else None
            else None).
    cbn [startswith]. unfold lit.
    destruct (char_eqb c_slash c); [|reflexivity].
    destruct (char_eqb c_slash d); [|reflexivity].
    cbn [andb]. apply greedy_dot_eos; [|exact Hnl].
    intros HI. apply Hs. right. now right.
Qed.

Lemma sub_line_comment_terminator (nl : text) :
  is_terminator nl -> sub_from line_comment_re [] 0 nl = nl.
Proof. intros [-> | ->]; reflexivity. Qed.

Lemma sub_line_comment (body nl : text) :
  ~ In LF body -> is_terminator nl ->
  re_sub line_comment_re [] (body ++ nl) = before_line_comment body ++ nl.
Proof.
  unfold re_sub. intros Hb Hnl. induction body as [|c body IH].
  - now apply sub_line_comment_terminator.
  - assert (Hb' : ~ In LF body) by (intros HI; apply Hb; now right).
    change ((c :: body) ++ nl) with (c :: (body ++ nl)).
    cbn [sub_from before_line_comment].
    change (c :: (body ++ nl)) with ((c :: body) ++ nl).
    rewrite (@match_line_comment (c :: body) nl Hb Hnl).
    destruct (startswith [c_slash; c_slash] (c :: body)).
    + replace (List.length ((c :: body) ++ nl) - List.length nl)%nat
        with (S (List.length body))
        by (rewrite length_app; cbn [List.length]; lia).
      cbn [app]. destruct body as [|d body].
      * now apply sub_line_comment_terminator.
      * rewrite sub_from_skip by (left; discriminate).
        now apply sub_line_comment_terminator.
    + cbn [app]. now rewrite IH.
Qed.

(** *** [/\*.*?\*/] *)

Lemma lazy_dot_unfold (s : text) :
  match_here (Cls dot StarLazy :: close_re) s
  = match match_here close_re s with
    | Some r => Some r
    | None =>
        match s with
        | c :: s' =>
            if dot c then match_here (Cls dot StarLazy :: close_re) s' else None
        | [] => None
        end
    end.
Proof. destruct s; reflexivity. Qed.

Lemma match_close_terminator (nl : text) :
  is_terminator nl -> match_here close_re nl = None.
Proof. intros [-> | ->]; reflexivity. Qed.

Lemma not_LF_dot (c : char) : c <> LF -> dot c = true.
Proof. intros H. unfold dot. now apply negb_true_iff, char_eqb_neq. Qed.

Lemma lazy_dot_close (rest nl : text) :
  ~ In LF rest -> is_terminator nl ->
  match_here (Cls dot StarLazy :: close_re) (rest ++ nl)
  = option_map (fun after => after ++ nl) (find_close rest).
Proof.
  intros Hr Hnl. induction rest as [|c rest IH].
  - destruct Hnl as [-> | ->]; reflexivity.
  - assert (Hc : dot c = true) by (apply not_LF_dot; intros ->; apply Hr; now left).
    assert (Hr' : ~ In LF rest) by (intros HI; apply Hr; now right).
    specialize (IH Hr').
    rewrite lazy_dot_unfold. cbn [app find_close].
    change (match_here close_re (c :: rest ++ nl))
      with (if lit c_star c
            then match rest ++ nl with
                 | d :: r => if lit c_slash d then Some r else None
                 | [] => None
                 end
            else None).
    destruct (lit c_star c); cbn [andb].
    + destruct rest as [|d rest].
      * cbn [app startswith]. rewrite Hc.
        replace (match nl with
                 | [] => None
                 | d :: r => if lit c_slash d then Some r else None
                 end) with (@None text)
          by (destruct Hnl as [-> | ->]; reflexivity).
        exact IH.
      * cbn [app startswith tl]. unfold lit at 1.
        destruct (char_eqb c_slash d); cbn [andb].
        -- reflexivity.
        -- rewrite Hc. exact IH.
    + rewrite Hc. exact IH.
Qed.

Lemma match_block_comment (s nl : text) :
  ~ In LF s -> is_terminator nl ->
  match_here block_comment_re (s ++ nl)
  = option_map (fun after => after ++ nl) (block_comment_at s).
Proof.
  intros Hs Hnl. destruct s as [|c [|d rest]].
  - destruct Hnl as [-> | ->]; reflexivity.
  - cbn [app match_here block_comment_re block_comment_at option_map].
    destruct (lit c_slash c); [|reflexivity].
    destruct Hnl as [-> | ->]; reflexivity.
  - change (match_here block_comment_re ((c :: d :: rest) ++ nl))
      with (if lit c_slash c
            then if lit c_star d
                 then match_here (Cls dot StarLazy :: close_re) (rest ++ nl)
                 else None
            else None).
    cbn [block_comment_at].
    destruct (lit c_slash c); [|reflexivity].
    destruct (lit c_star d); [|reflexivity].
    cbn [andb]. apply lazy_dot_close; [|exact Hnl].
    intros HI. apply Hs. right. now right.
Qed.

Lemma find_close_split (s after : text) :
  find_close s = Some after ->
  exists mid, s = mid ++ c_star :: c_slash :: after.
Proof.
  induction s as [|c s IH]; [discriminate|]. cbn [find_close].
  destruct (lit c_star c) eqn:Hc; cbn [andb].
  - destruct s as [|d s]; cbn [startswith].
    + intros H. destruct (IH H) as [mid ->]. now exists (c :: mid).
    + destruct (char_eqb c_slash d) eqn:Hd; cbn [andb tl].
      * intros [= <-]. apply char_eqb_eq in Hc, Hd. subst c d. now exists [].
      * intros H. destruct (IH H) as [mid E]. exists (c :: mid).
        cbn [app]. now rewrite <- E.
  - intros H. destruct (IH H) as [mid E]. exists (c :: mid).
    cbn [app]. now rewrite <- E.
Qed.

Lemma block_comment_at_split (s after : text) :
  block_comment_at s = Some after ->
  exists c taken, s = c :: taken ++ after /\ taken <> [].
Proof.
  destruct s as [|c [|d rest]]; try discriminate. cbn [block_comment_at].
  destruct (lit c_slash c && lit c_star d); [|discriminate].
  intros H. apply find_close_split in H as [mid ->].
  exists c, (d :: mid ++ [c_star; c_slash]). split.
  - cbn [app]. rewrite <- app_assoc. reflexivity.
  - discriminate.
Qed.

Lemma sub_block_terminator (nl : text) :
  is_terminator nl -> sub_from block_comment_re [] 0 nl = nl.
Proof. intros [-> | ->]; reflexivity. Qed.

Lemma sub_block_comment (n : nat) : forall (s nl : text),
  (List.length s <= n)%nat -> ~ In LF s -> is_terminator nl ->
  re_sub block_comment_re [] (s ++ nl) = strip_blocks_fuel n s ++ nl.
Proof.
  unfold re_sub. induction n as [|n IH]; intros s nl L Hs Hnl.
  - destruct s; [|simpl in L; lia]. now apply sub_block_terminator.
  - destruct s as [|c s]; [now apply sub_block_terminator|].
    cbn [List.length] in L.
    assert (Hs' : ~ In LF s) by (intros HI; apply Hs; now right).
    change ((c :: s) ++ nl) with (c :: (s ++ nl)).
    cbn [sub_from strip_blocks_fuel].
    change (c :: (s ++ nl)) with ((c :: s) ++ nl).
    rewrite (@match_block_comment (c :: s) nl Hs Hnl).
    destruct (block_comment_at (c :: s)) as [after|] eqn:B;
      cbn [option_map].
    + destruct (block_comment_at_split _ B) as [c' [taken [E Ht]]].
      injection E as <- ->.
      assert (Ha : ~ In LF after).
      { intros HI. apply Hs'. apply in_or_app. now right. }
      replace (List.length ((c :: taken ++ after) ++ nl)
               - List.length (after ++ nl))%nat
        with (S (List.length taken))
        by (cbn [app List.length]; rewrite !length_app; lia).
      cbn [app]. rewrite <- app_assoc.
      rewrite sub_from_skip by (left; exact Ht).
      apply IH; [|exact Ha | exact Hnl].
      rewrite length_app in L. lia.
    + cbn [app]. rewrite IH by (try assumption; lia). reflexivity.
Qed.

(** *** The cleaned line *)

Lemma before_line_comment_incl (c : char) (s : text) :
  In c (before_line_comment s) -> In c s.
Proof.
  induction s as [|d s IH]; [intros []|]. cbn [before_line_comment].
  destruct (startswith [c_slash; c_slash] (d :: s)); [intros []|].
  intros [E | HI]; [now left | right; auto].
Qed.

Lemma clean_line_spec (body nl : text) :
  ~ In LF body -> is_terminator nl ->
  clean_line (body ++ nl) = strip_blocks (before_line_comment body) ++ nl.
Proof.
  intros Hb Hnl. unfold clean_line, strip_blocks.
  rewrite (@sub_line_comment body nl Hb Hnl).
  apply sub_block_comment; [lia | | exact Hnl].
  intros HI. apply Hb. now apply before_line_comment_incl.
Qed.

Lemma body_of_line (body nl : text) :
  ~ In LF body -> is_terminator nl -> body_of (body ++ nl) = body.
Proof.
  intros Hb Hnl. unfold body_of. rewrite rstrip_LF_rdrop.
  rewrite rdrop_app_all by (destruct Hnl as [-> | ->]; reflexivity).
  apply rdrop_fixed. intros [s [c [E Hc]]]. apply is_LF_spec in Hc. subst c.
  apply Hb. rewrite E. apply in_or_app. right. now left.
Qed.

Lemma count_char_app (c : char) (a b : text) :
  count_char c (a ++ b) = (count_char c a + count_char c b)%Z.
Proof. induction a as [|d a IH]; cbn [app count_char]; lia. Qed.

Lemma count_char_terminator (c : char) (nl : text) :
  c <> LF -> is_terminator nl -> count_char c nl = 0%Z.
Proof.
  intros Hc [-> | ->]; [reflexivity|]. cbn [count_char].
  apply char_eqb_neq in Hc. now rewrite Hc.
Qed.

Lemma line_shape_split (l : text) :
  line_shape l ->
  exists body nl, l = body ++ nl /\ ~ In LF body /\ is_terminator nl.
Proof.
  intros [body [Hb [-> | [-> _]]]].
  - exists body, [LF]. repeat split; auto. now right.
  - exists body, []. rewrite app_nil_r. repeat split; auto. now left.
Qed.

Lemma count_clean_line (c : char) (l : text) :
  c <> LF -> line_shape l ->
  count_char c (clean_line l) = count_char c (outside_comments l).
Proof.
  intros Hc Hl. destruct (line_shape_split Hl) as [body [nl [-> [Hb Hnl]]]].
  unfold outside_comments.
  rewrite (@body_of_line body nl Hb Hnl), (@clean_line_spec body nl Hb Hnl).
  rewrite count_char_app, (@count_char_terminator c nl Hc Hnl). lia.
Qed.

Lemma brace_balance_counts (lines : list text) :
  Forall line_shape lines ->
  brace_balance lines
  = (brace_count c_lbrace lines - brace_count c_rbrace lines)%Z.
Proof.
  intros H. rewrite brace_balance_eq. unfold brace_count.
  induction H as [|l lines Hl _ IH]; [reflexivity|].
  cbn [map sumZ]. rewrite IH. unfold brace_delta.
  rewrite !count_clean_line by (exact Hl || discriminate). lia.
Qed.

(** ** Brace balance *)

Lemma line_issue_prefix (m : text) (lines : list text) :
  In m (line_issues lines) -> has_line_number m = true /\ is_brace_issue m = false.
Proof.
  rewrite line_issues_eq. intros H.
  apply In_issues_from in H as [r [i ->]]. destruct r; split; reflexivity.
Qed.

(** C1 as claimed fails: in the one-line file [/* { */ }] the line holds
    one [{] and one [}] outside single-line comments, and the scan reports
    a brace imbalance. *)
Lemma brace_claim_counterexample :
  claimed_brace_count c_lbrace (readlines (str "/* { */ }" ++ [LF]))
  = claimed_brace_count c_rbrace (readlines (str "/* { */ }" ++ [LF]))
  /\ scan (readlines (str "/* { */ }" ++ [LF]))
     = [str "Unbalanced braces: -1 extra closing braces"].
Proof. split; vm_compute; reflexivity. Qed.

(** C1, amended: on every line take the text that is left when the
    line is first cut at its first [//] (wherever it stands, inside a
    block comment too) and then, in what is left, the block comments
    opened and closed there are removed; this is, up to the line
    terminator, the text the second loop counts in.  Count [{] and [}] in
    it.  When the two counts are equal the scan adds nothing to the
    per-line issues.  When there is exactly one [{] more, the scan
    appends, after all per-line issues, the single issue
    [Unbalanced braces: 1 extra opening braces]; every per-line issue
    starts with [Line ] and its number, the appended one does not. *)
Theorem brace_issue_amended (lines : list text) :
  Forall line_shape lines ->
  (forall l, In l lines ->
     exists nl, is_terminator nl /\ clean_line l = outside_comments l ++ nl)
  /\ (brace_count c_lbrace lines = brace_count c_rbrace lines ->
     scan lines = line_issues lines)
  /\ (brace_count c_lbrace lines = (brace_count c_rbrace lines + 1)%Z ->
      scan lines
      = line_issues lines ++ [str "Unbalanced braces: 1 extra opening braces"])
  /\ (forall m, In m (line_issues lines) ->
        has_line_number m = true /\ is_brace_issue m = false)
  /\ has_line_number (str "Unbalanced braces: 1 extra opening braces") = false
  /\ is_brace_issue (str "Unbalanced braces: 1 extra opening braces") = true.
Proof.
  intros Hs. pose proof (brace_balance_counts Hs) as B.
  split; [|split; [|split; [|split; [|split]]]].
  - intros l Hl. rewrite Forall_forall in Hs.
    destruct (line_shape_split (Hs l Hl)) as [body [nl [-> [Hb Hnl]]]].
    exists nl. split; [exact Hnl|]. unfold outside_comments.
    rewrite (@body_of_line body nl Hb Hnl). now apply clean_line_spec.
  - intros E. unfold scan.
    replace (brace_balance lines) with 0%Z by lia. reflexivity.
  - intros E. unfold scan.
    replace (brace_balance lines) with 1%Z by lia. reflexivity.
  - intros m. apply line_issue_prefix.
  - reflexivity.
  - reflexivity.
Qed.

Lemma brace_issue_amended_witness :
  scan (readlines (str "/* { // */" ++ [LF] ++ str "x == 1 /* } */" ++ [LF]))
  = line_issues (readlines (str "/* { // */" ++ [LF] ++ str "x == 1 /* } */" ++ [LF]))
    ++ [str "Unbalanced braces: 1 extra opening braces"].
Proof.
  apply (proj1 (proj2 (proj2 (@brace_issue_amended
           (readlines (str "/* { // */" ++ [LF] ++ str "x == 1 /* } */" ++ [LF]))
           (proj2 (Forall_forall _ _) (@readlines_shape _)))))).
  vm_compute. reflexivity.
Defined.

(** * Further properties of the scan *)

(** ** Order of the per-line issues *)

Lemma issues_from_app (a b : list text) : forall start,
  issues_from start (a ++ b)
  = issues_from start a ++ issues_from (start + len a) b.
Proof.
  unfold len. induction a as [|l a IH]; intros start.
  - cbn [app issues_from List.length Z.of_nat]. now rewrite Z.add_0_r.
  - cbn [app issues_from]. rewrite IH, <- app_assoc.
    replace (start + 1 + Z.of_nat (List.length a))%Z
      with (start + Z.of_nat (List.length (l :: a)))%Z
      by (cbn [List.length]; lia).
    reflexivity.
Qed.

(** X1: the per-line issues of a file are those of its first lines
    followed by those of the lines after them, numbered on from there; in
    particular one more line at the end adds, after everything reported
    before, its logging-call issue, then its loose-equality issue, then
    its trailing-whitespace issue, each only if its rule fires. *)
Theorem line_issues_app (a b : list text) (l : text) :
  line_issues (a ++ b) = line_issues a ++ issues_from (len a + 1) b
  /\ line_issues (a ++ [l])
     = line_issues a
       ++ (if rule_console l then [msg_console (len a + 1)] else [])
       ++ (if rule_loose_eq l then [msg_loose_eq (len a + 1)] else [])
       ++ (if rule_trailing l then [msg_trailing (len a + 1)] else []).
Proof.
  rewrite !line_issues_eq, !issues_from_app.
  replace (1 + len a)%Z with (len a + 1)%Z by lia. split; [reflexivity|].
  cbn [issues_from]. unfold issues_of_line. now rewrite !app_nil_r.
Qed.

(** ** How many issues *)

Lemma issues_of_line_length (i : Z) (line : text) :
  (List.length (issues_of_line i line) <= 3)%nat.
Proof.
  unfold issues_of_line.
  destruct (rule_console line), (rule_loose_eq line), (rule_trailing line);
    cbn [app List.length]; lia.
Qed.

Lemma issues_from_length (lines : list text) : forall start,
  (List.length (issues_from start lines) <= 3 * List.length lines)%nat.
Proof.
  induction lines as [|l lines IH]; intros start; cbn [issues_from List.length].
  - lia.
  - rewrite length_app. pose proof (issues_of_line_length start l).
    specialize (IH (start + 1)%Z). lia.
Qed.

(** X2: a file of n lines gets at most 3 n + 1 issues: at most one per
    rule and line, and at most one for the braces. *)
Theorem scan_length_bound (lines : list text) :
  (List.length (scan lines) <= 3 * List.length lines + 1)%nat.
Proof.
  unfold scan. rewrite line_issues_eq.
  pose proof (issues_from_length lines 1) as B.
  destruct (negb (brace_balance lines =? 0)%Z).
  - rewrite length_app. cbn [List.length]. lia.
  - lia.
Qed.

(** ** Every issue has a cause *)

Lemma In_issues_from_cause (m : text) (lines : list text) : forall start,
  In m (issues_from start lines) ->
  exists r n line,
    nth_error lines n = Some line /\ fires r line = true
    /\ m = msg r (start + Z.of_nat n).
Proof.
  induction lines as [|l lines IH]; intros start H; [destruct H|].
  cbn [issues_from] in H. apply in_app_or in H as [H | H].
  - rewrite issues_of_line_fires in H.
    assert (C : forall r, In m (if fires r l then [msg r start] else []) ->
                fires r l = true /\ m = msg r start).
    { intros r Hr. destruct (fires r l); [|destruct Hr].
      destruct Hr as [<- | []]. auto. }
    apply in_app_or in H as [H | H]; [|apply in_app_or in H as [H | H]];
      apply C in H as [F ->].
    + exists Console, 0%nat, l. rewrite Z.add_0_r. auto.
    + exists LooseEq, 0%nat, l. rewrite Z.add_0_r. auto.
    + exists Trailing, 0%nat, l. rewrite Z.add_0_r. auto.
  - apply IH in H as [r [n [line [Hn [F ->]]]]].
    exists r, (S n), line. repeat split; auto. f_equal. lia.
Qed.

(** X3: nothing is reported without cause: every issue of the scan is the
    message of a rule that fires on a line of the input, with that line's
    1-based number, or it is the brace message and the brace balance is
    not zero. *)
Theorem scan_issue_cause (lines : list text) (m : text) :
  In m (scan lines) ->
  (exists r n line,
     nth_error lines n = Some line /\ fires r line = true
     /\ m = msg r (Z.of_nat n + 1))
  \/ (brace_balance lines <> 0%Z /\ m = msg_braces (brace_balance lines)).
Proof.
  unfold scan. rewrite line_issues_eq.
  destruct (brace_balance lines =? 0)%Z eqn:B; cbn [negb]; intros H.
  - left. apply In_issues_from_cause in H as [r [n [line [Hn [F ->]]]]].
    exists r, n, line. repeat split; auto. f_equal. lia.
  - apply in_app_or in H as [H | [<- | []]].
    + left. apply In_issues_from_cause in H as [r [n [line [Hn [F ->]]]]].
      exists r, n, line. repeat split; auto. f_equal. lia.
    + right. split; [now apply Z.eqb_neq | reflexivity].
Qed.

Lemma scan_issue_cause_witness :
  (exists r n line,
     nth_error [str "a == b"] n = Some line /\ fires r line = true
     /\ msg_loose_eq 1 = msg r (Z.of_nat n + 1))
  \/ (brace_balance [str "a == b"] <> 0%Z
      /\ msg_loose_eq 1 = msg_braces (brace_balance [str "a == b"])).
Proof.
  apply (@scan_issue_cause [str "a == b"] (msg_loose_eq 1)).
  vm_compute. left. reflexivity.
Defined.

(** ** No issue twice *)

(** X4: the list of issues has no duplicate: two issues differ by their
    rule or by their line number, and the brace message comes once. *)
Theorem scan_NoDup (lines : list text) : NoDup (scan lines).
Proof.
  apply (NoDup_count_occ text_eq_dec). intros m.
  destruct (in_dec text_eq_dec m (scan lines)) as [HI | HN].
  - destruct (scan_issue_cause _ _ HI) as [[r [n [line [Hn [F ->]]]]] | [B ->]].
    + pose proof (occurrences_scan r _ _ Hn) as C. unfold occurrences in C.
      rewrite C. destruct (fires r line); lia.
    + unfold scan. rewrite line_issues_eq.
      apply Z.eqb_neq in B. rewrite B. cbn [negb].
      rewrite count_occ_app. cbn [count_occ].
      destruct (text_eq_dec (msg_braces (brace_balance lines))
                            (msg_braces (brace_balance lines))); [|contradiction].
      assert (Z0 : count_occ text_eq_dec (issues_from 1 lines)
                     (msg_braces (brace_balance lines)) = 0%nat).
      { apply count_occ_not_In. intros H.
        apply In_issues_from in H as [r [i E]]. symmetry in E.
        now apply msg_not_braces in E. }
      rewrite Z0. lia.
  - apply (count_occ_not_In text_eq_dec) in HN. rewrite HN. lia.
Qed.

(** ** The brace message *)

Lemma fmt_int_neg (n : Z) :
  (n < 0)%Z -> fmt_int n = 45%N :: fmt_int (- n).   (* 45 is '-' *)
Proof.
  intros H. destruct n as [|p|p]; try lia. reflexivity.
Qed.

(** X5: when the brace balance is not zero the scan ends with exactly one
    more issue than the per-line issues.  With n more opening braces it
    reads [Unbalanced braces: n extra opening braces]; with n more closing
    braces the count is printed with its minus sign:
    [Unbalanced braces: -n extra closing braces]. *)
Theorem brace_message_signed (lines : list text) (n : Z) :
  (0 < n)%Z ->
  (brace_balance lines = n ->
     scan lines
     = line_issues lines
       ++ [str "Unbalanced braces: " ++ fmt_int n ++ str " extra opening braces"])
  /\ (brace_balance lines = (- n)%Z ->
      scan lines
      = line_issues lines
        ++ [str "Unbalanced braces: -" ++ fmt_int n
            ++ str " extra closing braces"]).
Proof.
  intros Hn. split; intros B; unfold scan; rewrite B.
  - replace (n =? 0)%Z with false by (symmetry; apply Z.eqb_neq; lia).
    cbn [negb]. unfold msg_braces.
    replace (n >? 0)%Z with true by (symmetry; apply Z.gtb_lt; lia).
    reflexivity.
  - replace (- n =? 0)%Z with false by (symmetry; apply Z.eqb_neq; lia).
    cbn [negb]. unfold msg_braces.
    replace (- n >? 0)%Z with false
      by (symmetry; rewrite Z.gtb_ltb; apply Z.ltb_ge; lia).
    rewrite fmt_int_neg by lia. rewrite Z.opp_involutive.
    reflexivity.
Qed.

Lemma brace_message_signed_witness :
  scan [str "}" ++ [LF]; str "x }" ++ [LF]]
  = line_issues [str "}" ++ [LF]; str "x }" ++ [LF]]
    ++ [str "Unbalanced braces: -" ++ fmt_int 2 ++ str " extra closing braces"].
Proof.
  apply (proj2 (@brace_message_signed [str "}" ++ [LF]; str "x }" ++ [LF]] 2
                 eq_refl)).
  reflexivity.
Defined.

Lemma sumZ_Permutation (l l' : list Z) : Permutation l l' -> sumZ l = sumZ l'.
Proof.
  induction 1; cbn [sumZ]; lia.
Qed.

(** X6: the brace check looks at totals only: the brace balance of a file
    is the sum of the balances of its parts, so it is the same for every
    reordering of the lines; a closing brace that comes before its opening
    brace goes unnoticed. *)
Theorem brace_balance_order_blind (a b lines lines' : list text) :
  brace_balance (a ++ b) = (brace_balance a + brace_balance b)%Z
  /\ (Permutation lines lines' -> brace_balance lines = brace_balance lines')
  /\ (Permutation lines lines' ->
      brace_balance lines = 0%Z -> scan lines' = line_issues lines').
Proof.
  assert (P : Permutation lines lines' ->
              brace_balance lines = brace_balance lines').
  { intros H. rewrite !brace_balance_eq. apply sumZ_Permutation.
    now apply Permutation_map. }
  split; [|split].
  - rewrite !brace_balance_eq, map_app.
    induction (map brace_delta a) as [|x m IH]; cbn [app sumZ]; lia.
  - exact P.
  - intros H B. unfold scan. rewrite <- (P H), B. reflexivity.
Qed.

Lemma brace_balance_order_blind_witness :
  scan [str "} else {" ++ [LF]; str "if (x) {" ++ [LF]; str "}" ++ [LF]]
  = line_issues [str "} else {" ++ [LF]; str "if (x) {" ++ [LF]; str "}" ++ [LF]].
Proof.
  apply (proj2 (proj2 (brace_balance_order_blind [] []
           [str "if (x) {" ++ [LF]; str "} else {" ++ [LF]; str "}" ++ [LF]]
           [str "} else {" ++ [LF]; str "if (x) {" ++ [LF]; str "}" ++ [LF]]))).
  - apply perm_swap.
  - reflexivity.
Defined.

(** ** What the comment removal keeps and drops *)

Lemma before_line_comment_cut (pre post : text) :
  before_line_comment (pre ++ c_slash :: c_slash :: post)
  = before_line_comment (pre ++ [c_slash; c_slash]).
Proof.
  induction pre as [|c pre IH].
  - reflexivity.
  - change (before_line_comment ((c :: pre) ++ c_slash :: c_slash :: post))
      with (if startswith [c_slash; c_slash] (c :: pre ++ c_slash :: c_slash :: post)
            then []
            else c :: before_line_comment (pre ++ c_slash :: c_slash :: post)).
    change (before_line_comment ((c :: pre) ++ [c_slash; c_slash]))
      with (if startswith [c_slash; c_slash] (c :: pre ++ [c_slash; c_slash])
            then []
            else c :: before_line_comment (pre ++ [c_slash; c_slash])).
    rewrite IH.
    replace (startswith [c_slash; c_slash] (c :: pre ++ c_slash :: c_slash :: post))
      with (startswith [c_slash; c_slash] (c :: pre ++ [c_slash; c_slash]));
      [reflexivity|].
    destruct pre as [|d pre]; reflexivity.
Qed.

(** X7: on a line, whatever follows the first [//] has no influence on
    the brace count: the cleaned line is the same as if the line ended
    right after that [//]. *)
Theorem clean_line_ignores_after_comment (pre post nl : text) :
  ~ In LF pre -> ~ In LF post -> is_terminator nl ->
  clean_line (pre ++ str "//" ++ post ++ nl) = clean_line (pre ++ str "//" ++ nl)
  /\ brace_delta (pre ++ str "//" ++ post ++ nl)
     = brace_delta (pre ++ str "//" ++ nl).
Proof.
  intros Hpre Hpost Hnl.
  assert (E : clean_line (pre ++ str "//" ++ post ++ nl)
              = clean_line (pre ++ str "//" ++ nl)).
  { change (str "//") with [c_slash; c_slash].
    assert (N1 : ~ In LF (pre ++ [c_slash; c_slash] ++ post)).
    { intros H. apply in_app_or in H as [H | H]; [contradiction|].
      apply in_app_or in H as [H | H]; [|contradiction].
      destruct H as [H | [H | []]]; discriminate H. }
    assert (N2 : ~ In LF (pre ++ [c_slash; c_slash])).
    { intros H. apply in_app_or in H as [H | H]; [contradiction|].
      destruct H as [H | [H | []]]; discriminate H. }
    replace (pre ++ [c_slash; c_slash] ++ post ++ nl)
      with ((pre ++ [c_slash; c_slash] ++ post) ++ nl)
      by (now rewrite <- !app_assoc).
    replace (pre ++ [c_slash; c_slash] ++ nl)
      with ((pre ++ [c_slash; c_slash]) ++ nl)
      by (now rewrite <- !app_assoc).
    rewrite (@clean_line_spec _ nl N1 Hnl), (@clean_line_spec _ nl N2 Hnl).
    change (pre ++ [c_slash; c_slash] ++ post)
      with (pre ++ c_slash :: c_slash :: post).
    now rewrite before_line_comment_cut. }
  split; [exact E|]. unfold brace_delta. now rewrite E.
Qed.

Lemma clean_line_ignores_after_comment_witness :
  brace_delta (str "f() { " ++ str "//" ++ str " } } }" ++ [LF])
  = brace_delta (str "f() { " ++ str "//" ++ [LF]).
Proof.
  apply (proj2 (@clean_line_ignores_after_comment
                  (str "f() { ") (str " } } }") [LF]
                  ltac:(vm_compute; intuition discriminate)
                  ltac:(vm_compute; intuition discriminate)
                  (or_intror eq_refl))).
Defined.

Lemma substring_cons (needle s : text) (c : char) :
  substring needle s -> substring needle (c :: s).
Proof. intros [pre [post ->]]. now exists (c :: pre), post. Qed.

Lemma sub_from_no_match (re : regex) (repl s : text) :
  (forall pre t, s = pre ++ t -> match_here re t = None) ->
  sub_from re repl 0 s = s.
Proof.
  induction s as [|c s IH]; intros H.
  - cbn [sub_from]. now rewrite (H [] [] eq_refl).
  - cbn [sub_from]. rewrite (H [] (c :: s) eq_refl). f_equal.
    apply IH. intros pre t E. apply (H (c :: pre) t). now rewrite E.
Qed.

Lemma match_line_comment_start (t r : text) :
  match_here line_comment_re t = Some r -> substring (str "//") t.
Proof.
  destruct t as [|c [|d rest]]; cbn [match_here line_comment_re].
  - discriminate.
  - destruct (lit c_slash c); discriminate.
  - destruct (lit c_slash c) eqn:Hc; [|discriminate].
    destruct (lit c_slash d) eqn:Hd; [|discriminate].
    apply char_eqb_eq in Hc, Hd. subst c d. intros _.
    now exists [], rest.
Qed.

Lemma match_close_start (t r : text) :
  match_here close_re t = Some r -> t = c_star :: c_slash :: r.
Proof.
  destruct t as [|c [|d rest]]; cbn [match_here close_re].
  - discriminate.
  - destruct (lit c_star c); discriminate.
  - destruct (lit c_star c) eqn:Hc; [|discriminate].
    destruct (lit c_slash d) eqn:Hd; [|discriminate].
    apply char_eqb_eq in Hc, Hd. subst c d. now intros [= ->].
Qed.

Lemma lazy_dot_close_marker (t r : text) :
  match_here (Cls dot StarLazy :: close_re) t = Some r ->
  substring (str "*/") t.
Proof.
  induction t as [|c t IH]; rewrite lazy_dot_unfold.
  - discriminate.
  - destruct (match_here close_re (c :: t)) as [r'|] eqn:M.
    + intros _. apply match_close_start in M. rewrite M. now exists [], r'.
    + destruct (dot c); [|discriminate].
      intros H. apply substring_cons. now apply IH.
Qed.

Lemma match_block_comment_marker (t r : text) :
  match_here block_comment_re t = Some r -> substring (str "*/") t.
Proof.
  destruct t as [|c [|d rest]].
  - discriminate.
  - cbn [match_here block_comment_re]. destruct (lit c_slash c); discriminate.
  - change (match_here block_comment_re (c :: d :: rest))
      with (if lit c_slash c
            then if lit c_star d
                 then match_here (Cls dot StarLazy :: close_re) rest
                 else None
            else None).
    destruct (lit c_slash c); [|discriminate].
    destruct (lit c_star d); [|discriminate].
    intros H. apply lazy_dot_close_marker in H.
    now apply substring_cons, substring_cons.
Qed.

Lemma not_substring_suffix (needle pre t : text) :
  ~ substring needle (pre ++ t) -> ~ substring needle t.
Proof.
  intros H [a [b ->]]. apply H. exists (pre ++ a), b.
  now rewrite <- app_assoc.
Qed.

(** X8: a line (any text) that holds neither [//] nor [*/] is left as it
    is by the comment removal, so all its braces count; this is what
    happens to the inner lines, and to the opening line, of a block
    comment that spans several lines. *)
Theorem clean_line_without_markers (line : text) :
  ~ substring (str "//") line -> ~ substring (str "*/") line ->
  clean_line line = line
  /\ brace_delta line
     = (count_char c_lbrace line - count_char c_rbrace line)%Z.
Proof.
  intros H1 H2.
  assert (E : clean_line line = line).
  { unfold clean_line, re_sub.
    assert (L : sub_from line_comment_re [] 0 line = line).
    { apply sub_from_no_match. intros pre t -> .
      destruct (match_here line_comment_re t) as [r|] eqn:M; [|reflexivity].
      exfalso. apply (@not_substring_suffix _ pre t H1).
      now apply match_line_comment_start in M. }
    rewrite L. apply sub_from_no_match. intros pre t -> .
    destruct (match_here block_comment_re t) as [r|] eqn:M; [|reflexivity].
    exfalso. apply (@not_substring_suffix _ pre t H2).
    now apply match_block_comment_marker in M. }
  split; [exact E|]. unfold brace_delta. now rewrite E.
Qed.

Lemma clean_line_without_markers_witness :
  brace_delta (str "/* if (x) {" ++ [LF]) = 1%Z.
Proof.
  rewrite (proj2 (@clean_line_without_markers (str "/* if (x) {" ++ [LF])
             ltac:(rewrite <- py_in_spec; vm_compute; discriminate)
             ltac:(rewrite <- py_in_spec; vm_compute; discriminate))).
  reflexivity.
Defined.

(** X9: on every line that [readlines] delivers, the two substitutions of
    the second loop do this: the text from the first [//] to the end of
    the line goes, the line terminator stays, and of what is left every
    block comment that is opened and closed there goes, from left to
    right. *)
Theorem clean_line_on_file_lines (content l : text) :
  In l (readlines content) ->
  exists nl,
    is_terminator nl /\ l = body_of l ++ nl
    /\ re_sub line_comment_re [] l = before_line_comment (body_of l) ++ nl
    /\ clean_line l = strip_blocks (before_line_comment (body_of l)) ++ nl.
Proof.
  intros H. apply readlines_shape in H.
  destruct (line_shape_split H) as [body [nl [-> [Hb Hnl]]]].
  exists nl. rewrite (@body_of_line body nl Hb Hnl). repeat split; auto.
  - now apply sub_line_comment.
  - now apply clean_line_spec.
Qed.

Lemma clean_line_on_file_lines_witness :
  exists nl,
    is_terminator nl
    /\ str "a /* { */ b // }" ++ [LF] = body_of (str "a /* { */ b // }" ++ [LF]) ++ nl
    /\ re_sub line_comment_re [] (str "a /* { */ b // }" ++ [LF])
       = before_line_comment (body_of (str "a /* { */ b // }" ++ [LF])) ++ nl
    /\ clean_line (str "a /* { */ b // }" ++ [LF])
       = strip_blocks (before_line_comment (body_of (str "a /* { */ b // }" ++ [LF])))
         ++ nl.
Proof.
  apply (@clean_line_on_file_lines
           (str "x" ++ [CR; LF] ++ str "a /* { */ b // }" ++ [LF])
           (str "a /* { */ b // }" ++ [LF])).
  vm_compute. right. left. reflexivity.
Defined.

(** ** Size of the report *)

Lemma count_char_not_In (c : char) (s : text) :
  ~ In c s -> count_char c s = 0%Z.
Proof.
  induction s as [|d s IH]; intros H; cbn [count_char]; [reflexivity|].
  rewrite IH by (intros HI; apply H; now right).
  replace (char_eqb c d) with false; [reflexivity|].
  symmetry. apply char_eqb_neq. intros ->. apply H. now left.
Qed.

Lemma count_LF_unlines (ls : list text) :
  (forall l, In l ls -> ~ In LF l) ->
  count_char LF (unlines ls) = len ls.
Proof.
  unfold len, unlines. induction ls as [|l ls IH]; intros H.
  - reflexivity.
  - cbn [flat_map List.length]. rewrite !count_char_app, IH.
    + rewrite (@count_char_not_In LF l) by (apply H; now left).
      cbn [count_char]. rewrite char_eqb_refl. lia.
    + intros l' Hl'. apply H. now right.
Qed.

Lemma In_firstn (A : Type) (n : nat) (l : list A) (x : A) :
  In x (firstn n l) -> In x l.
Proof.
  intros H. rewrite <- (firstn_skipn n l). apply in_or_app. now left.
Qed.

Lemma report_no_LF (lines : list text) (l : text) :
  In l (report (scan lines)) -> ~ In LF l.
Proof.
  unfold report. destruct (scan lines) as [|i rest] eqn:E.
  - intros [<- | []] H. no_LF_literal H.
  - rewrite <- E. intros H.
    apply in_app_or in H as [[<- | []] | H].
    + unfold header. intros H.
      apply in_app_or in H as [H | H]; [no_LF_literal H|].
      apply in_app_or in H as [H | H]; [now apply fmt_int_no_LF in H|].
      no_LF_literal H.
    + apply in_app_or in H as [H | H].
      * apply in_map_iff in H as [issue [<- HI]].
        apply In_firstn in HI. unfold indent. intros H.
        apply in_app_or in H as [H | H]; [no_LF_literal H|].
        now apply scan_no_LF in HI.
      * destruct (20 <? len (scan lines))%Z; [|destruct H].
        destruct H as [<- | []]. unfold more. intros H.
        apply in_app_or in H as [H | H]; [no_LF_literal H|].
        apply in_app_or in H as [H | H]; [now apply fmt_int_no_LF in H|].
        no_LF_literal H.
Qed.

Lemma report_length (issues : list text) :
  len (report issues)
  = match issues with
    | [] => 1%Z
    | _ :: _ => (1 + Z.min (len issues) 20
                 + (if (20 <? len issues)%Z then 1 else 0))%Z
    end.
Proof.
  unfold report, len. destruct issues as [|i rest]; [reflexivity|].
  rewrite !length_app, length_map, length_firstn. cbn [List.length].
  destruct (20 <? Z.of_nat (S (List.length rest)))%Z eqn:B;
    [apply Z.ltb_lt in B | apply Z.ltb_ge in B]; cbn [List.length]; lia.
Qed.

Lemma In_delivered (d : device) (ls : list text) (l : text) :
  In l (delivered d ls) -> In l ls.
Proof.
  destruct d as [|[room|]|[|]]; cbn [delivered]; intros H;
    try (destruct H; fail); try exact H.
  now apply In_firstn in H.
Qed.

Lemma delivered_length (d : device) (ls : list text) :
  (List.length (delivered d ls) <= List.length ls)%nat.
Proof.
  destruct d as [|[room|]|[|]]; cbn [delivered List.length]; try lia.
  rewrite length_firstn. lia.
Qed.

(** X10: whatever standard output is, a run puts at most 22 lines on it,
    and none at all when [script.js] cannot be opened or read.  When
    standard output takes everything that is printed and the file is
    readable, the run prints one line if there is no issue and otherwise
    one header line, one line for each of the first 20 issues and one
    more line when there are more than 20. *)
Theorem report_line_count (d : device) (w : world) :
  (count_char LF (output d w) <= 22)%Z
  /\ (forall e,
        files w script = CannotOpen e \/ files w script = CannotRead e ->
        output d w = [])
  /\ (forall content,
        reliable d = true ->
        files w script = Readable content ->
        count_char LF (output d w)
        = match scan (readlines content) with
          | [] => 1%Z
          | _ :: _ =>
              (1 + Z.min (len (scan (readlines content))) 20
               + (if (20 <? len (scan (readlines content)))%Z then 1 else 0))%Z
          end).
Proof.
  assert (C : forall content, files w script = Readable content ->
    count_char LF (output d w)
    = len (delivered d (report (scan (readlines content))))).
  { intros content F. rewrite (output_readable d _ F).
    apply count_LF_unlines. intros l Hl. apply In_delivered in Hl.
    revert Hl. apply report_no_LF. }
  split; [|split].
  - destruct (files w script) as [e|e|content] eqn:F.
    + rewrite (output_unreadable d w (or_introl F)). cbn [count_char]. lia.
    + rewrite (output_unreadable d w (or_intror F)). cbn [count_char]. lia.
    + rewrite (C _ eq_refl).
      pose proof (delivered_length d (report (scan (readlines content)))) as L.
      pose proof (report_length (scan (readlines content))) as R.
      unfold len in *.
      destruct (scan (readlines content)) as [|i rest]; [lia|].
      destruct (20 <? Z.of_nat (List.length (i :: rest)))%Z; lia.
  - intros e H. now apply (output_unreadable d w H).
  - intros content R F. rewrite (C _ F), (@delivered_reliable d _ R).
    apply report_length.
Qed.

Lemma report_line_count_witness :
  output (Direct (Some 5%nat))
         (mkWorld (fun _ => CannotOpen PermissionError) 0 [] Absent []) = []
  /\ count_char LF (output (Buffered true)
                      (mkWorld (fun _ => Readable twenty_five_lines) 0 [] Absent []))
     = (1 + Z.min (len (scan (readlines twenty_five_lines))) 20
        + (if (20 <? len (scan (readlines twenty_five_lines)))%Z then 1 else 0))%Z.
Proof.
  split.
  - apply (proj1 (proj2 (report_line_count (Direct (Some 5%nat))
             (mkWorld (fun _ => CannotOpen PermissionError) 0 [] Absent [])))
             PermissionError).
    left. reflexivity.
  - exact (proj2 (proj2 (report_line_count (Buffered true)
             (mkWorld (fun _ => Readable twenty_five_lines) 0 [] Absent [])))
             twenty_five_lines eq_refl eq_refl).
Defined.

(** X11: exit status and message agree when standard output takes
    everything that is printed: a run then exits with 0 exactly when what
    it prints is the line [No major issues found!]. *)
Theorem status_zero_iff_success_message (d : device) (w : world) :
  reliable d = true ->
  (fst (run d w) = 0%Z <-> output d w = str "No major issues found!" ++ [LF]).
Proof.
  intros R. destruct (files w script) as [e|e|content] eqn:F.
  - rewrite (proj1 (run_unreadable d w (or_introl F))),
            (output_unreadable d w (or_introl F)).
    split; discriminate.
  - rewrite (proj1 (run_unreadable d w (or_intror F))),
            (output_unreadable d w (or_intror F)).
    split; discriminate.
  - rewrite (proj1 (run_readable d _ F)), (output_readable d _ F).
    rewrite (@delivered_reliable d _ R), (@status_after_reliable d _ _ R).
    destruct (scan (readlines content)) as [|i rest].
    + split; reflexivity.
    + cbn [status_of]. split; [discriminate|].
      unfold report, unlines, header. cbn [app flat_map].
      discriminate.
Qed.

Lemma status_zero_iff_success_message_witness :
  output (Direct None)
         (mkWorld (fun _ => Readable (str "x = 1;" ++ [LF])) 0 [] Absent [])
  = str "No major issues found!" ++ [LF].
Proof.
  apply (proj1 (@status_zero_iff_success_message (Direct None)
           (mkWorld (fun _ => Readable (str "x = 1;" ++ [LF])) 0 [] Absent [])
           eq_refl)).
  reflexivity.
Defined.

(** ** Line numbers *)

Lemma universal_newlines_id (s : text) :
  ~ In CR s -> universal_newlines s = s.
Proof.
  induction s as [|c s IH]; intros H; [reflexivity|].
  cbn [universal_newlines]. destruct (char_eqb c CR) eqn:Hc.
  - apply char_eqb_eq in Hc. subst c. exfalso. apply H. now left.
  - rewrite IH; [reflexivity|]. intros HI. apply H. now right.
Qed.

Lemma unterminated_cons (c d : char) (s : text) :
  unterminated (c :: d :: s) = unterminated (d :: s).
Proof. reflexivity. Qed.

Lemma split_keepends_nonempty (c : char) (s : text) :
  split_keepends (c :: s) <> [].
Proof.
  cbn [split_keepends]. destruct (char_eqb c LF); [discriminate|].
  destruct (split_keepends s); discriminate.
Qed.

Lemma split_keepends_app (pre s : text) :
  unterminated pre = false ->
  split_keepends (pre ++ s) = split_keepends pre ++ split_keepends s.
Proof.
  induction pre as [|c pre IH]; intros U; [reflexivity|].
  destruct pre as [|d pre].
  - cbn [unterminated last] in U. apply negb_false_iff in U.
    cbn [app split_keepends]. now rewrite U.
  - rewrite unterminated_cons in U. specialize (IH U).
    pose proof (@split_keepends_nonempty d pre) as NE.
    remember (d :: pre) as p eqn:Ep. clear Ep.
    change ((c :: p) ++ s) with (c :: (p ++ s)).
    cbn [split_keepends]. rewrite IH.
    destruct (char_eqb c LF); [reflexivity|].
    destruct (split_keepends p) as [|l0 ls]; [contradiction | reflexivity].
Qed.

Lemma count_char_nonneg (c : char) (s : text) : (0 <= count_char c s)%Z.
Proof.
  induction s as [|d s IH]; cbn [count_char]; [lia|].
  destruct (char_eqb c d); lia.
Qed.

Lemma split_keepends_length (pre : text) :
  unterminated pre = false ->
  List.length (split_keepends pre) = newlines pre.
Proof.
  unfold newlines. induction pre as [|c pre IH]; intros U; [reflexivity|].
  pose proof (count_char_nonneg LF pre) as P.
  destruct pre as [|d pre].
  - cbn [unterminated last] in U. apply negb_false_iff in U.
    cbn [split_keepends count_char]. rewrite U.
    apply char_eqb_eq in U. subst c. reflexivity.
  - rewrite unterminated_cons in U. specialize (IH U).
    pose proof (@split_keepends_nonempty d pre) as NE.
    remember (d :: pre) as p eqn:Ep. clear Ep.
    cbn [split_keepends count_char].
    destruct (char_eqb c LF) eqn:Hc.
    + apply char_eqb_eq in Hc. subst c. rewrite char_eqb_refl.
      cbn [List.length]. rewrite IH. lia.
    + replace (char_eqb LF c) with false
        by (symmetry; apply char_eqb_neq; apply char_eqb_neq in Hc; congruence).
      destruct (split_keepends p) as [|l0 ls]; [contradiction|].
      cbn [List.length] in *. rewrite IH. f_equal.
Qed.

(** X12: line numbers are those of the file.  In a file without carriage
    returns, take a line that starts at the beginning of the file or right
    after a newline and runs up to its own newline: [readlines] delivers
    it at the index that counts the newlines before it, and a rule fires
    on it exactly when the scan holds that rule's message with the number
    of newlines before the line plus one. *)
Theorem issue_line_number (pre body post : text) (r : rule) :
  ~ In CR (pre ++ body ++ LF :: post) ->
  unterminated pre = false ->
  ~ In LF body ->
  nth_error (readlines (pre ++ body ++ LF :: post)) (newlines pre)
  = Some (body ++ [LF])
  /\ (fires r (body ++ [LF]) = true <->
      In (msg r (Z.of_nat (newlines pre) + 1))
         (scan (readlines (pre ++ body ++ LF :: post)))).
Proof.
  intros HCR U Hb.
  assert (N : nth_error (readlines (pre ++ body ++ LF :: post)) (newlines pre)
              = Some (body ++ [LF])).
  { unfold readlines. rewrite (@universal_newlines_id _ HCR).
    rewrite (@split_keepends_app pre _ U), <- (@split_keepends_length pre U).
    rewrite nth_error_app2, Nat.sub_diag by lia.
    now rewrite (@split_keepends_line body post Hb). }
  split; [exact N|]. symmetry. now apply In_scan_iff.
Qed.

Lemma issue_line_number_witness :
  In (msg_trailing 3)
     (scan (readlines (str "a;" ++ [LF; LF] ++ str "b; " ++ LF :: str "c;"))).
Proof.
  apply (proj1 (proj2 (@issue_line_number (str "a;" ++ [LF; LF]) (str "b; ")
                         (str "c;") Trailing
                         ltac:(vm_compute; intuition discriminate)
                         eq_refl
                         ltac:(vm_compute; intuition discriminate)))).
  reflexivity.
Defined.

(** ** Line endings *)

Lemma readlines_lf (bodies : list text) :
  (forall b, In b bodies -> ~ In CR b /\ ~ In LF b) ->
  readlines (lf_file bodies) = map (fun b => b ++ [LF]) bodies.
Proof.
  intros H. unfold readlines, lf_file.
  assert (NCR : ~ In CR (List.concat (map (fun b => b ++ [LF]) bodies))).
  { intros HI. apply in_concat in HI as [l [Hl Hc]].
    apply in_map_iff in Hl as [b [<- Hb]].
    apply in_app_or in Hc as [Hc | [Hc | []]]; [|discriminate Hc].
    now apply (proj1 (H b Hb)). }
  rewrite (@universal_newlines_id _ NCR). clear NCR.
  induction bodies as [|b bodies IH]; [reflexivity|].
  cbn [map List.concat]. rewrite <- app_assoc. cbn [app].
  rewrite (@split_keepends_line b _ (proj2 (H b (or_introl eq_refl)))).
  rewrite IH; [reflexivity|]. intros b' Hb'. apply H. now right.
Qed.

(** X13: the style of the line endings makes no difference: a file whose
    lines end with CR LF and the file with the same lines ending with LF
    are read as the same lines, so a run (with the same standard output)
    prints the same text and exits with the same status on both. *)
Theorem line_ending_style_blind (d : device) (bodies : list text)
        (w1 w2 : world) :
  (forall b, In b bodies -> ~ In CR b /\ ~ In LF b) ->
  files w1 script = Readable (crlf_file bodies) ->
  files w2 script = Readable (lf_file bodies) ->
  readlines (crlf_file bodies) = readlines (lf_file bodies)
  /\ fst (run d w1) = fst (run d w2)
  /\ output d w1 = output d w2.
Proof.
  intros H F1 F2.
  assert (E : readlines (crlf_file bodies) = readlines (lf_file bodies))
    by now rewrite (readlines_crlf _ H), (readlines_lf _ H).
  rewrite (proj1 (run_readable d _ F1)), (proj1 (run_readable d _ F2)).
  rewrite (output_readable d _ F1), (output_readable d _ F2).
  rewrite E. auto.
Qed.

Lemma line_ending_style_blind_witness :
  output (Direct None)
         (mkWorld (fun _ => Readable (crlf_file [str "a == b"; str "}"])) 0 []
                  Absent [])
  = output (Direct None)
           (mkWorld (fun _ => Readable (lf_file [str "a == b"; str "}"])) 0 []
                    Absent []).
Proof.
  apply (proj2 (proj2 (@line_ending_style_blind (Direct None)
           [str "a == b"; str "}"]
           (mkWorld (fun _ => Readable (crlf_file [str "a == b"; str "}"])) 0 []
                    Absent [])
           (mkWorld (fun _ => Readable (lf_file [str "a == b"; str "}"])) 0 []
                    Absent [])
           ltac:(intros b [<- | [<- | []]]; split; vm_compute;
                 intuition discriminate)
           eq_refl eq_refl))).
Defined.

(** ** Two block comments on one line *)

Lemma find_close_first (a rest : text) :
  ~ In c_star a ->
  find_close (a ++ c_star :: c_slash :: rest) = Some rest.
Proof.
  induction a as [|c a IH]; intros H.
  - reflexivity.
  - cbn [app find_close].
    replace (lit c_star c) with false.
    + cbn [andb]. apply IH. intros HI. apply H. now right.
    + symmetry. apply char_eqb_neq. intros E. apply H. now left.
Qed.

Lemma strip_blocks_fuel_plain (mid rest : text) : forall n,
  ~ In c_slash mid ->
  strip_blocks_fuel (List.length mid + n) (mid ++ rest)
  = mid ++ strip_blocks_fuel n rest.
Proof.
  induction mid as [|c mid IH]; intros n H; [reflexivity|].
  cbn [List.length Nat.add app strip_blocks_fuel].
  assert (B : block_comment_at (c :: mid ++ rest) = None).
  { unfold block_comment_at. destruct (mid ++ rest); [reflexivity|].
    replace (lit c_slash c) with false; [reflexivity|].
    symmetry. apply char_eqb_neq. intros E. apply H. now left. }
  rewrite B. f_equal. apply IH. intros HI. apply H. now right.
Qed.

Lemma before_line_comment_plain (s rest : text) :
  ~ In c_slash s ->
  before_line_comment (s ++ rest) = s ++ before_line_comment rest.
Proof.
  induction s as [|c s IH]; intros H; [reflexivity|].
  cbn [app before_line_comment].
  replace (startswith [c_slash; c_slash] (c :: s ++ rest)) with false.
  - f_equal. apply IH. intros HI. apply H. now right.
  - symmetry. cbn [startswith].
    replace (char_eqb c_slash c) with false; [reflexivity|].
    symmetry. apply char_eqb_neq. intros E. apply H. now left.
Qed.

Lemma before_line_comment_slash (d : char) (rest : text) :
  d <> c_slash ->
  before_line_comment (c_slash :: d :: rest)
  = c_slash :: before_line_comment (d :: rest).
Proof.
  intros H.
  change (before_line_comment (c_slash :: d :: rest))
    with (if startswith [c_slash; c_slash] (c_slash :: d :: rest)
          then []
          else c_slash :: before_line_comment (d :: rest)).
  cbn [startswith]. rewrite char_eqb_refl.
  replace (char_eqb c_slash d) with false; [reflexivity|].
  symmetry. apply char_eqb_neq. congruence.
Qed.

Lemma before_line_comment_comment (a rest : text) :
  ~ In c_slash a ->
  before_line_comment (c_slash :: c_star :: a ++ c_star :: rest)
  = c_slash :: c_star :: a ++ c_star :: before_line_comment rest.
Proof.
  intros H. rewrite before_line_comment_slash by discriminate.
  assert (S1 : forall r, before_line_comment (c_star :: r)
                         = c_star :: before_line_comment r).
  { intros r. apply (@before_line_comment_plain [c_star] r).
    intros [E | []]; discriminate E. }
  now rewrite S1, (@before_line_comment_plain a (c_star :: rest) H), S1.
Qed.

(** X14: block comments are matched one at a time: when a line is made
    of a block comment, some text and a second block comment, both
    comments go and the text between them stays, braces included.  (The
    comments hold no [*] and no [/], the text between them no [/], and
    that text is not empty.) *)
Theorem clean_line_two_comments (a mid b nl : text) :
  ~ In LF a -> ~ In LF mid -> ~ In LF b ->
  ~ In c_star a -> ~ In c_slash a -> ~ In c_star b -> ~ In c_slash b ->
  ~ In c_slash mid -> mid <> [] -> is_terminator nl ->
  clean_line (two_comments a mid b nl) = mid ++ nl.
Proof.
  intros La Lm Lb Ha1 Ha2 Hb1 Hb2 Hm Hne Hnl. unfold two_comments.
  set (tail := c_slash :: c_star :: b ++ [c_star; c_slash]).
  set (body := c_slash :: c_star :: a ++ c_star :: c_slash :: mid ++ tail).
  assert (E : str "/*" ++ a ++ str "*/" ++ mid ++ str "/*" ++ b ++ str "*/" ++ nl
              = body ++ nl).
  { change (str "/*") with [c_slash; c_star].
    change (str "*/") with [c_star; c_slash].
    unfold body, tail.
    repeat (progress (cbn [app]; rewrite <- ?app_assoc)). reflexivity. }
  rewrite E. clear E.
  assert (Hbody : ~ In LF body).
  { unfold body, tail. intros H.
    destruct H as [H | [H | H]]; try discriminate H.
    apply in_app_or in H as [H | H]; [contradiction|].
    destruct H as [H | [H | H]]; try discriminate H.
    apply in_app_or in H as [H | H]; [contradiction|].
    destruct H as [H | [H | H]]; try discriminate H.
    apply in_app_or in H as [H | H]; [contradiction|].
    destruct H as [H | [H | []]]; discriminate H. }
  rewrite (@clean_line_spec body nl Hbody Hnl). f_equal.
  assert (NC : before_line_comment body = body).
  { unfold body. rewrite (@before_line_comment_comment a _ Ha2).
    destruct mid as [|m mid']; [contradiction|].
    assert (Hm0 : m <> c_slash) by (intros ->; apply Hm; now left).
    cbn [app]. rewrite (@before_line_comment_slash m _ Hm0).
    change (m :: mid' ++ tail) with ((m :: mid') ++ tail).
    rewrite (@before_line_comment_plain (m :: mid') tail Hm).
    unfold tail.
    change (b ++ [c_star; c_slash]) with (b ++ c_star :: [c_slash]).
    rewrite (@before_line_comment_comment b _ Hb2). reflexivity. }
  rewrite NC. unfold strip_blocks.
  assert (L : List.length body
              = S (List.length mid + S (List.length a + List.length b + 6))).
  { unfold body, tail. cbn [List.length].
    repeat (rewrite length_app; cbn [List.length]). lia. }
  rewrite L. unfold body at 1.
  cbn [strip_blocks_fuel block_comment_at].
  cbn [lit char_eqb N.eqb c_slash c_star Pos.eqb andb].
  rewrite (@find_close_first a (mid ++ tail) Ha1).
  rewrite (@strip_blocks_fuel_plain mid tail _ Hm).
  unfold tail at 1. cbn [strip_blocks_fuel block_comment_at].
  cbn [lit char_eqb N.eqb c_slash c_star Pos.eqb andb].
  change (b ++ [c_star; c_slash]) with (b ++ c_star :: c_slash :: []).
  rewrite (@find_close_first b [] Hb1).
  destruct (List.length a + List.length b + 6)%nat; cbn [strip_blocks_fuel];
    now rewrite app_nil_r.
Qed.

Lemma clean_line_two_comments_witness :
  clean_line (two_comments (str " a { ") (str " } ") (str " b ") [LF])
  = str " } " ++ [LF].
Proof.
  apply (@clean_line_two_comments (str " a { ") (str " } ") (str " b ") [LF]);
    vm_compute; intuition discriminate.
Defined.
